(** * BPlusTree.py: an insert-only B+ tree

    Shallow embedding of [src/BPlusTree.py] and the properties of its
    insertion algorithm.

    Modelling decisions.
    - Keys are Python integers: [Z].
    - A [BPTreeLeaf] object is referenced twice: by a slot of its parent's
      [_pointers] list and by the [_next] attribute of the leaf to its left.
      Leaves therefore live in a store (a list of leaf objects, the address
      of a leaf being its index; allocation appends) and every method that
      touches a leaf is a computation of the state-and-error monad [M].
    - A [BPTreeNode] object is referenced by exactly one slot (its parent's,
      or the [_tree] attribute of the [BPTree]); its lists are never shared
      because every list the source stores is a fresh slice.  The in-place
      update of a node by [insert_here] is modelled by returning the updated
      node to the owner of the slot.
    - Python exceptions are values of [error]; a loop whose termination
      depends on the heap ([BPTreeLeaf.keys]) runs on fuel, the number of
      allocated leaves, and reports [OutOfFuel] where Python would not
      return.
    - Capacities, subscripts and slice bounds are Python integers: [Z], with
      Python's reading of negative subscripts and its clamping of slices.

    The file has the embedding first, then the vocabulary of the
    invariants (key ranges, the shape of a subtree, the chain of leaves),
    then the lemmas, then one theorem for each property of the
    specification. *)

From stdpp Require Import base list numbers sorting sets strings pretty.
From Stdlib Require Import ZArith Lia.

Open Scope Z_scope.

Set Warnings "-register-all,-clear-no-such-hyp".

(** ** Errors and the store monad *)

Inductive error := IndexError | OutOfFuel | BadAddress.

Inductive res (A : Type) :=
| Ok (a : A)
| Err (e : error).
Arguments Ok {A} a.
Arguments Err {A} e.

(** The address of a leaf object: its index in the store. *)
Abbreviation addr := nat (only parsing).

Record BPTreeLeaf := mkLeaf {
  leaf_keys : list Z;
  leaf_next : option addr;
  leaf_capacity : Z
}.

(** What a slot of [_pointers] (or [BPTree._tree]) holds: a reference to a
    leaf object of the store, or a node object with its three attributes. *)
Inductive pointer :=
| Leaf (a : addr)
| Node (keys : list Z) (pointers : list pointer) (capacity : Z).

Abbreviation store := (list BPTreeLeaf) (only parsing).

Definition M (A : Type) : Type := store -> res (A * store).

Definition ret {A} (a : A) : M A := fun s => Ok (a, s).

Definition raise {A} (e : error) : M A := fun _ => Err e.

Definition bind {A B} (m : M A) (k : A -> M B) : M B :=
  fun s => match m s with
           | Ok (a, s') => k a s'
           | Err e => Err e
           end.

Notation "'let*' x ':=' m 'in' k" := (bind m (fun x => k))
  (at level 10, x name, m at level 100, k at level 200).

Definition get_leaf (a : addr) : M BPTreeLeaf :=
  fun s => match s !! a with
           | Some lf => Ok (lf, s)
           | None => Err BadAddress
           end.

Definition set_keys (a : addr) (ks : list Z) : M unit :=
  fun s => match s !! a with
           | Some lf => Ok (tt, <[a := mkLeaf ks (leaf_next lf) (leaf_capacity lf)]> s)
           | None => Err BadAddress
           end.

Definition set_next (a : addr) (nx : option addr) : M unit :=
  fun s => match s !! a with
           | Some lf => Ok (tt, <[a := mkLeaf (leaf_keys lf) nx (leaf_capacity lf)]> s)
           | None => Err BadAddress
           end.

Definition alloc (lf : BPTreeLeaf) : M addr :=
  fun s => Ok (length s, s ++ [lf]).

Definition allocated : M nat := fun s => Ok (length s, s).

Definition lift_opt {A} (o : option A) : M A :=
  match o with
  | Some a => ret a
  | None => raise IndexError
  end.

(** ** Python list primitives *)

(** [l[n]] for a Python integer [n]: negative subscripts count from the end. *)
Definition getitem {A} (l : list A) (n : Z) : option A :=
  if 0 <=? n then l !! Z.to_nat n
  else if 0 <=? n + Z.of_nat (length l) then l !! Z.to_nat (n + Z.of_nat (length l))
  else None.

(** The start or stop of a slice, clamped as Python does. *)
Definition slice_bound {A} (l : list A) (n : Z) : nat :=
  if n <? 0 then Z.to_nat (n + Z.of_nat (length l)) else Z.to_nat n.

(** [l[n:]] and [l[:n]]. *)
Definition slice_from {A} (l : list A) (n : Z) : list A := drop (slice_bound l n) l.
Definition slice_to {A} (l : list A) (n : Z) : list A := take (slice_bound l n) l.

(** [l.insert(i, x)] for [i >= 0]; past the end it appends. *)
Definition list_insert_at {A} (i : nat) (x : A) (l : list A) : list A :=
  take i l ++ x :: drop i l.

(** [l.remove(x)]: deletes the first element equal to [x]. *)
Fixpoint list_remove (x : Z) (l : list Z) : list Z :=
  match l with
  | [] => []
  | y :: l' => if Z.eqb y x then l' else y :: list_remove x l'
  end.

(** [x in l]. *)
Definition list_contains (x : Z) (l : list Z) : bool := existsb (Z.eqb x) l.

Definition len {A} (l : list A) : Z := Z.of_nat (length l).

Definition sum (l : list Z) : Z := foldr Z.add 0 l.

(** [bisect.bisect_left] and [bisect.bisect_right]: the binary search of the
    Python library, [lo = 0] and [hi = len(a)].  The loop halves [hi - lo],
    so [length a] rounds of fuel are never used up. *)
Fixpoint bisect_left_loop (fuel : nat) (a : list Z) (x : Z) (lo hi : nat) : nat :=
  match fuel with
  | O => lo
  | S fuel' =>
      if (lo <? hi)%nat then
        let mid := ((lo + hi) / 2)%nat in
        match a !! mid with
        | Some y => if y <? x then bisect_left_loop fuel' a x (S mid) hi
                    else bisect_left_loop fuel' a x lo mid
        | None => lo
        end
      else lo
  end.

Definition bisect_left (a : list Z) (x : Z) : nat :=
  bisect_left_loop (length a) a x 0 (length a).

Fixpoint bisect_right_loop (fuel : nat) (a : list Z) (x : Z) (lo hi : nat) : nat :=
  match fuel with
  | O => lo
  | S fuel' =>
      if (lo <? hi)%nat then
        let mid := ((lo + hi) / 2)%nat in
        match a !! mid with
        | Some y => if x <? y then bisect_right_loop fuel' a x lo mid
                    else bisect_right_loop fuel' a x (S mid) hi
        | None => lo
        end
      else lo
  end.

Definition bisect_right (a : list Z) (x : Z) : nat :=
  bisect_right_loop (length a) a x 0 (length a).

(** ** Method dispatch through a slot *)

(** [self._pointers[i].method(...)]: [IndexError] when the slot is missing. *)
Definition on_nth {A} (f : pointer -> M A) : list pointer -> nat -> M A :=
  fix go (l : list pointer) (i : nat) : M A :=
    match l with
    | [] => raise IndexError
    | c :: l' => match i with
                 | O => f c
                 | S i' => go l' i'
                 end
    end.

(** [map(lambda n: n.method(), self._pointers)], left to right. *)
Definition map_pointers {A} (f : pointer -> M A) : list pointer -> M (list A) :=
  fix go (l : list pointer) : M (list A) :=
    match l with
    | [] => ret []
    | c :: l' => let* x := f c in let* xs := go l' in ret (x :: xs)
    end.

Definition split_index (cap : Z) : Z := (cap + 1) / 2.

(** ** class BPTreeLeaf *)

Module BPTreeLeaf.

(** The [while current._next is not None] loop of [keys]. *)
Fixpoint keys_loop (fuel : nat) (current : addr) (all_keys : list Z) : M (list Z) :=
  match fuel with
  | O => raise OutOfFuel
  | S fuel' =>
      let* cur := get_leaf current in
      match leaf_next cur with
      | None => ret all_keys
      | Some nx =>
          let* nxt := get_leaf nx in
          keys_loop fuel' nx (all_keys ++ leaf_keys nxt)
      end
  end.

Definition keys (self : addr) : M (list Z) :=
  let* me := get_leaf self in
  let all_keys := leaf_keys me in
  let* fuel := allocated in
  keys_loop fuel self all_keys.

Definition find (self : addr) (key : Z) : M bool :=
  let* me := get_leaf self in
  ret (list_contains key (leaf_keys me)).

(** Returns [None] for the source's [(None, None)] and
    [Some (pkey, ppointer)] for a promotion. *)
Definition insert (self : addr) (key : Z) : M (option (Z * pointer)) :=
  let* me := get_leaf self in
  let index := bisect_left (leaf_keys me) key in
  let* _ :=
    if (index =? length (leaf_keys me))%nat then
      set_keys self (list_insert_at index key (leaf_keys me))
    else
      let* k := lift_opt (leaf_keys me !! index) in
      if negb (k =? key) then set_keys self (list_insert_at index key (leaf_keys me))
      else ret tt in
  let* me := get_leaf self in
  let cap := leaf_capacity me in
  let split_index := split_index cap in
  if cap <? len (leaf_keys me) then
    let* new_leaf := alloc (mkLeaf (slice_from (leaf_keys me) split_index) (leaf_next me) cap) in
    let* _ := set_keys self (slice_to (leaf_keys me) split_index) in
    let* _ := set_next self (Some new_leaf) in
    let* nl := get_leaf new_leaf in
    let* pkey := lift_opt (getitem (leaf_keys nl) 0) in
    ret (Some (pkey, Leaf new_leaf))
  else ret None.

Definition num_nodes (self : addr) : M Z := let* _ := get_leaf self in ret 0.

Definition num_leaves (self : addr) : M Z := let* _ := get_leaf self in ret 1.

Definition num_keys (self : addr) : M Z :=
  let* me := get_leaf self in ret (len (leaf_keys me)).

Definition height (self : addr) : M Z := let* _ := get_leaf self in ret 0.

End BPTreeLeaf.

(** ** class BPTreeNode

    Each method is one [Fixpoint] on the slot: the [Leaf] case is Python's
    dynamic dispatch to the [BPTreeLeaf] method of the same name, the [Node]
    case is the body of the [BPTreeNode] method. *)

Module BPTreeNode.

Fixpoint keys (self : pointer) : M (list Z) :=
  match self with
  | Leaf a => BPTreeLeaf.keys a
  | Node _ pointers _ => on_nth keys pointers 0
  end.

Fixpoint find (self : pointer) (key : Z) : M bool :=
  match self with
  | Leaf a => BPTreeLeaf.find a key
  | Node keys pointers _ =>
      on_nth (fun c => find c key) pointers (bisect_right keys key)
  end.

(** [insert_here] on a node with attributes [keys], [pointers], [cap]:
    the node as it is left, and the promotion. *)
Definition insert_here (keys : list Z) (pointers : list pointer) (cap : Z)
    (position : nat) (key : Z) (pointer_ : pointer)
    : M (pointer * option (Z * pointer)) :=
  let keys := list_insert_at position key keys in
  let pointers := list_insert_at (position + 1) pointer_ pointers in
  let split_index := split_index cap in
  if cap <? len keys then
    let* pkey := lift_opt (getitem keys split_index) in
    let keys := list_remove pkey keys in
    let new_lateral_node :=
      Node (slice_from keys split_index) (slice_from pointers (split_index + 1)) cap in
    let keys := slice_to keys split_index in
    let pointers := slice_to pointers (split_index + 1) in
    ret (Node keys pointers cap, Some (pkey, new_lateral_node))
  else ret (Node keys pointers cap, None).

(** The first component is the slot's content after the call: the same
    leaf reference, or the node with the child slot and its own lists as
    the call left them. *)
Fixpoint insert (self : pointer) (key : Z) : M (pointer * option (Z * pointer)) :=
  match self with
  | Leaf a =>
      let* r := BPTreeLeaf.insert a key in ret (Leaf a, r)
  | Node keys pointers cap =>
      let i := bisect_right keys key in
      let* r := on_nth (fun c => insert c key) pointers i in
      let child := r.1 in
      let pointers := <[i := child]> pointers in
      match r.2 with
      | Some (pkey, ppointer) =>
          let position := bisect_left keys pkey in
          insert_here keys pointers cap position pkey ppointer
      | None => ret (Node keys pointers cap, None)
      end
  end.

Fixpoint num_nodes (self : pointer) : M Z :=
  match self with
  | Leaf a => BPTreeLeaf.num_nodes a
  | Node _ pointers _ =>
      let* ns := map_pointers num_nodes pointers in ret (1 + sum ns)
  end.

Fixpoint num_leaves (self : pointer) : M Z :=
  match self with
  | Leaf a => BPTreeLeaf.num_leaves a
  | Node _ pointers _ =>
      let* ns := map_pointers num_leaves pointers in ret (sum ns)
  end.

Fixpoint num_keys (self : pointer) : M Z :=
  match self with
  | Leaf a => BPTreeLeaf.num_keys a
  | Node _ pointers _ =>
      let* ns := map_pointers num_keys pointers in ret (sum ns)
  end.

Fixpoint height (self : pointer) : M Z :=
  match self with
  | Leaf a => BPTreeLeaf.height a
  | Node _ pointers _ =>
      let* h := on_nth height pointers 0 in ret (1 + h)
  end.

End BPTreeNode.

(** ** class BPTree *)

(** [_tree] and [_capacity] are the attributes of the source; [_leaves] is
    the store of the leaf objects the tree has allocated. *)
Record BPTree := mkTree {
  _tree : pointer;
  _capacity : Z;
  _leaves : store
}.

(** A method of [BPTree]: from the object to a result and the object after
    the call. *)
Definition T (A : Type) : Type := BPTree -> res (A * BPTree).

(** Runs a computation on the leaves of the tree; [_tree] and [_capacity]
    are not assigned. *)
Definition on_leaves {A} (m : pointer -> M A) : T A :=
  fun t => match m (_tree t) (_leaves t) with
           | Ok (a, s') => Ok (a, mkTree (_tree t) (_capacity t) s')
           | Err e => Err e
           end.

Module BPTree.

Definition init (capacity : Z) : res BPTree :=
  match alloc (mkLeaf [] None capacity) [] with
  | Ok (a, s) => Ok (mkTree (Leaf a) capacity s)
  | Err e => Err e
  end.

Definition insert (key : Z) : T unit :=
  fun t => match BPTreeNode.insert (_tree t) key (_leaves t) with
           | Ok ((root, Some (pkey, ppointer)), s') =>
               let new_master_node := Node [pkey] [root; ppointer] (_capacity t) in
               Ok (tt, mkTree new_master_node (_capacity t) s')
           | Ok ((root, None), s') => Ok (tt, mkTree root (_capacity t) s')
           | Err e => Err e
           end.

Definition keys : T (list Z) := on_leaves BPTreeNode.keys.

Definition find (key : Z) : T bool := on_leaves (fun p => BPTreeNode.find p key).

Definition num_nodes : T Z := on_leaves BPTreeNode.num_nodes.

Definition num_leaves : T Z := on_leaves BPTreeNode.num_leaves.

Definition num_keys : T Z := on_leaves BPTreeNode.num_keys.

Definition height : T Z :=
  fun t => match on_leaves BPTreeNode.height t with
           | Ok (h, t') => Ok (h + 1, t')
           | Err e => Err e
           end.

Definition stats : T (Z * Z * Z * Z) :=
  fun t =>
    match height t with
    | Err e => Err e
    | Ok (h, t1) =>
        match num_nodes t1 with
        | Err e => Err e
        | Ok (nn, t2) =>
            match num_leaves t2 with
            | Err e => Err e
            | Ok (nl, t3) =>
                match num_keys t3 with
                | Err e => Err e
                | Ok (nk, t4) => Ok ((h, nn, nl, nk), t4)
                end
            end
        end
    end.

End BPTree.

(** A run of inserts, as in the driver loop at the end of the source. *)
Fixpoint insert_all (ks : list Z) (t : BPTree) : res BPTree :=
  match ks with
  | [] => Ok t
  | k :: ks' =>
      match BPTree.insert k t with
      | Ok (_, t') => insert_all ks' t'
      | Err e => Err e
      end
  end.

Definition build (capacity : Z) (ks : list Z) : res BPTree :=
  match BPTree.init capacity with
  | Ok t => insert_all ks t
  | Err e => Err e
  end.

Definition test_keys : list Z :=
  [3; 8; 15; 32; 4; 11; 21; 2; 4; 34; 6; 13; 25; 16; 30; 1; 17;
   18; 24; 9; 22; 23; 5; 7; 19; 20; 39; 26; 31; 30].

Definition run {A} (m : T A) (r : res BPTree) : res A :=
  match r with
  | Ok t => match m t with Ok (a, _) => Ok a | Err e => Err e end
  | Err e => Err e
  end.

(** ** [BPTree.__str__]

    The rendering reads attributes that only one of the two classes has
    ([_pointers] of a node, [_next] of a leaf), so a computation here can
    also end in [AttributeError].  [str] of a list of keys is Python's own
    and is a parameter of the model. *)

Inductive str_error := AttributeError | Raised (e : error).

Inductive sres (A : Type) :=
| SOk (a : A)
| SErr (e : str_error).
Arguments SOk {A} a.
Arguments SErr {A} e.

Definition TS (A : Type) : Type := BPTree -> sres (A * BPTree).

Definition sret {A} (a : A) : TS A := fun t => SOk (a, t).

Definition sraise {A} (e : str_error) : TS A := fun _ => SErr e.

Definition sbind {A B} (m : TS A) (k : A -> TS B) : TS B :=
  fun t => match m t with
           | SOk (a, t') => k a t'
           | SErr e => SErr e
           end.

Notation "'let+' x ':=' m 'in' k" := (sbind m (fun x => k))
  (at level 10, x name, m at level 100, k at level 200).

(** A call of one of the methods modelled above. *)
Definition call {A} (m : T A) : TS A :=
  fun t => match m t with
           | Ok (a, t') => SOk (a, t')
           | Err e => SErr (Raised e)
           end.

(** [self._tree]. *)
Definition get_tree : TS pointer := fun t => SOk (_tree t, t).

Definition read_leaf (a : addr) : TS BPTreeLeaf :=
  fun t => match _leaves t !! a with
           | Some lf => SOk (lf, t)
           | None => SErr (Raised BadAddress)
           end.

(** [obj._pointers]. *)
Definition pointers_of (obj : pointer) : TS (list pointer) :=
  match obj with
  | Node _ pointers _ => sret pointers
  | Leaf _ => sraise AttributeError
  end.

(** [obj._pointers[0]]. *)
Definition first_pointer (obj : pointer) : TS pointer :=
  let+ pointers := pointers_of obj in
  match pointers !! 0%nat with
  | Some c => sret c
  | None => sraise (Raised IndexError)
  end.

(** [obj._next]; [None] of the result is Python's [None]. *)
Definition next_of (obj : pointer) : TS (option pointer) :=
  match obj with
  | Leaf a => let+ lf := read_leaf a in sret (option_map Leaf (leaf_next lf))
  | Node _ _ _ => sraise AttributeError
  end.

(** [x * n] for a string [x]. *)
Fixpoint repeat_string (n : nat) (x : string) : string :=
  match n with
  | O => ""
  | S n' => x +:+ repeat_string n' x
  end.

Definition str_mul (x : string) (n : Z) : string := repeat_string (Z.to_nat n) x.

Definition newline : string := String (Ascii.ascii_of_nat 10) "".

Module BPTreeRender.
Section WithStr.

Variable str_keys : list Z -> string.

(** [str(obj)]: [BPTreeNode.__str__] and [BPTreeLeaf.__str__] are both
    [str(self._keys)]. *)
Definition str (obj : pointer) : TS string :=
  match obj with
  | Node keys _ _ => sret (str_keys keys)
  | Leaf a => let+ lf := read_leaf a in sret (str_keys (leaf_keys lf))
  end.

(** [for i in range(n): leaf = leaf._pointers[0]]. *)
Fixpoint first_loop (n : nat) (leaf : pointer) : TS pointer :=
  match n with
  | O => sret leaf
  | S n' => let+ leaf' := first_pointer leaf in first_loop n' leaf'
  end.

(** [while leaf._next is not None: s += str(leaf) + "->"; leaf = leaf._next],
    on fuel; the result is [s] and [leaf] after the loop. *)
Fixpoint chain_loop (fuel : nat) (leaf : pointer) (s : string) : TS (string * pointer) :=
  match fuel with
  | O => sraise (Raised OutOfFuel)
  | S fuel' =>
      let+ nxt := next_of leaf in
      match nxt with
      | None => sret (s, leaf)
      | Some _ =>
          let+ x := str leaf in
          let+ nxt' := next_of leaf in
          match nxt' with
          | Some leaf' => chain_loop fuel' leaf' (s +:+ (x +:+ "->"))
          | None => sraise AttributeError
          end
      end
  end.

(** [for child in pointers: s += str(child) + " "]. *)
Fixpoint children_loop (pointers : list pointer) (s : string) : TS string :=
  match pointers with
  | [] => sret s
  | child :: rest =>
      let+ x := str child in children_loop rest (s +:+ (x +:+ " "))
  end.

(** [for child in pointers: for kid in child._pointers: s += str(kid) + " "]. *)
Fixpoint grandchildren_loop (pointers : list pointer) (s : string) : TS string :=
  match pointers with
  | [] => sret s
  | child :: rest =>
      let+ kids := pointers_of child in
      let+ s' := children_loop kids s in
      grandchildren_loop rest s'
  end.

(** The body of [for level in ...]. *)
Definition level_body (level : Z) (s : string) : TS string :=
  let+ s' :=
    if level =? 1 then
      let+ nk := call BPTree.num_keys in
      let+ root := get_tree in
      let+ x := str root in
      sret (s +:+ (str_mul (str_mul " " nk) 2 +:+ x))
    else
      let+ h := call BPTree.height in
      if level =? h then
        let+ root := get_tree in
        let+ leaf := first_pointer root in
        let+ h' := call BPTree.height in
        let+ leaf := first_loop (Z.to_nat (h' - 2)) leaf in
        let+ fuel := (fun t => SOk (length (_leaves t), t)) in
        let+ r := chain_loop fuel leaf s in
        let+ x := str r.2 in
        sret (r.1 +:+ x)
      else if level =? 2 then
        let+ nk := call BPTree.num_keys in
        let+ root := get_tree in
        let+ pointers := pointers_of root in
        children_loop pointers (s +:+ str_mul " " nk)
      else if level =? 3 then
        let+ nk := call BPTree.num_keys in
        let+ root := get_tree in
        let+ pointers := pointers_of root in
        grandchildren_loop pointers (s +:+ str_mul " " nk)
      else sret s in
  sret (s' +:+ newline).

Fixpoint levels_loop (levels : list Z) (s : string) : TS string :=
  match levels with
  | [] => sret s
  | level :: rest => let+ s' := level_body level s in levels_loop rest s'
  end.

(** [range(1, self.height() + 1)] is [seqZ 1 h]. *)
Definition __str__ : TS string :=
  let+ h := call BPTree.height in
  levels_loop (seqZ 1 h) "".

End WithStr.
End BPTreeRender.

(** * Specification vocabulary *)

(** ** Key ranges

    A subtree serves the keys of a half-open range [[lo, hi)]; [None] is an
    absent bound. *)

Abbreviation bound := (option Z) (only parsing).

(** [lo <= k], [lo < k] and [k < hi] for bounds that may be absent. *)
Definition lo_le (lo : bound) (k : Z) : Prop :=
  match lo with Some l => l <= k | None => True end.

Definition lo_lt (lo : bound) (k : Z) : Prop :=
  match lo with Some l => l < k | None => True end.

Definition lt_hi (k : Z) (hi : bound) : Prop :=
  match hi with Some h => k < h | None => True end.

Definition in_range (lo hi : bound) (k : Z) : Prop := lo_le lo k /\ lt_hi k hi.

(** A leaf of a subtree with the range it serves. *)
Abbreviation binfo := (addr * (bound * bound))%type (only parsing).

(** The children [cs] of a node with separators [ks], each satisfying [P] on
    its range; [bl] lists the leaves below, left to right. *)
Inductive bps (P : bound -> bound -> pointer -> list binfo -> Prop)
  : bound -> bound -> list Z -> list pointer -> list binfo -> Prop :=
| bps_last lo hi c bl :
    P lo hi c bl -> bps P lo hi [] [c] bl
| bps_cons lo hi k ks c cs bl1 bl2 :
    P lo (Some k) c bl1 -> lo_lt lo k -> lt_hi k hi ->
    bps P (Some k) hi ks cs bl2 ->
    bps P lo hi (k :: ks) (c :: cs) (bl1 ++ bl2).

(** [shape cap n lo hi p bl]: [p] is a B+ tree of height [n] whose nodes
    have capacity [cap] and at most [cap] separators, routing the keys of
    [[lo, hi)] to the leaves [bl]. *)
Fixpoint shape (cap : Z) (n : nat) (lo hi : bound) (p : pointer) (bl : list binfo) : Prop :=
  match n, p with
  | O, Leaf a => bl = [(a, (lo, hi))]
  | S n', Node ks cs c =>
      c = cap /\ len ks <= cap /\ bps (shape cap n') lo hi ks cs bl
  | _, _ => False
  end.

(** The keys of the leaf after lines 176-178 of the source: [key] goes to its
    [bisect_left] position unless that position already holds it. *)
Definition keys_after_insert (keys : list Z) (key : Z) : list Z :=
  let index := bisect_left keys key in
  if (index =? length keys)%nat then list_insert_at index key keys
  else match keys !! index with
       | Some k => if negb (k =? key) then list_insert_at index key keys else keys
       | None => keys
       end.

(** A leaf at rest: its own capacity is the tree's, it holds at most that many
    keys, strictly increasing and within the range it serves. *)
Definition leaf_ok (cap : Z) (lf : BPTreeLeaf) (lo hi : bound) : Prop :=
  leaf_capacity lf = cap /\
  len (leaf_keys lf) <= cap /\
  StronglySorted Z.lt (leaf_keys lf) /\
  Forall (in_range lo hi) (leaf_keys lf).

(** The slot after an insert below it: the subtree alone, or the subtree and
    the sibling it promoted, which share the range at the promoted key. *)
Definition grown (cap : Z) (n : nat) (lo hi : bound) (p' : pointer)
    (promo : option (Z * pointer)) (bl : list binfo) : Prop :=
  match promo with
  | None => shape cap n lo hi p' bl
  | Some (pk, q) =>
      exists ba bb, bl = ba ++ bb /\
        shape cap n lo (Some pk) p' ba /\ shape cap n (Some pk) hi q bb /\
        lo_lt lo pk /\ lt_hi pk hi
  end.

(** The leaves below a slot, left to right. *)
Fixpoint leaves_of (p : pointer) : list addr :=
  match p with
  | Leaf a => [a]
  | Node _ pointers _ => flat_map leaves_of pointers
  end.

(** The keys of the leaf at [a]. *)
Definition keys_at (s : store) (a : addr) : list Z :=
  match s !! a with
  | Some lf => leaf_keys lf
  | None => []
  end.

(** The keys held by the leaves [l], in the order of [l]. *)
Fixpoint contents (s : store) (l : list addr) : list Z :=
  match l with
  | [] => []
  | a :: l' => keys_at s a ++ contents s l'
  end.

(** The [_next] attributes link the leaves [l] in order and the last one
    to [nxt]. *)
Fixpoint chain (s : store) (l : list addr) (nxt : option addr) : Prop :=
  match l with
  | [] => True
  | a :: l' =>
      (exists lf, s !! a = Some lf /\
                  leaf_next lf = match l' with [] => nxt | b :: _ => Some b end) /\
      chain s l' nxt
  end.

(** Every leaf of [bl] is in the store and at rest on its range. *)
Definition leaves_ok (cap : Z) (s : store) (bl : list binfo) : Prop :=
  Forall (fun b : binfo => exists lf, s !! b.1 = Some lf /\ leaf_ok cap lf b.2.1 b.2.2) bl.

(** The range [[lo, hi)] is not empty. *)
Definition bound_lt (lo hi : bound) : Prop :=
  match hi with Some h => lo_lt lo h | None => True end.

(** Consecutive leaves serve consecutive, non-empty ranges. *)
Inductive tiling : bound -> bound -> list binfo -> Prop :=
| tiling_one a lo hi :
    bound_lt lo hi -> tiling lo hi [(a, (lo, hi))]
| tiling_cons a lo k hi bl :
    lo_lt lo k -> tiling (Some k) hi bl -> tiling lo hi ((a, (lo, Some k)) :: bl).

(** The stores [s] and [s'] hold the same leaves at the addresses [l]. *)
Definition agree_on (l : list addr) (s s' : store) : Prop :=
  forall x, x ∈ l -> s' !! x = s !! x.

(** A computation that, when it returns, hands back the store it was given. *)
Definition pure_at {A} (m : M A) : Prop :=
  forall s r s', m s = Ok (r, s') -> s' = s.

(** The number of [BPTreeNode] objects below a slot. *)
Fixpoint count_nodes (p : pointer) : Z :=
  match p with
  | Leaf _ => 0
  | Node _ pointers _ => 1 + sum (map count_nodes pointers)
  end.

(** The keys of the leaves of the tree, left to right. *)
Definition tree_keys (t : BPTree) : list Z :=
  contents (_leaves t) (leaves_of (_tree t)).

(** The state of a tree of height [n] between two calls. *)
Definition tree_inv (cap : Z) (n : nat) (t : BPTree) : Prop :=
  _capacity t = cap /\
  exists bl,
    shape cap n None None (_tree t) bl /\
    leaves_ok cap (_leaves t) bl /\
    NoDup bl.*1 /\
    chain (_leaves t) bl.*1 None.

(** The states a tree of capacity [cap] goes through. *)
Inductive reachable (cap : Z) : BPTree -> Prop :=
| reach_init t :
    BPTree.init cap = Ok t -> reachable cap t
| reach_insert t key t' :
    reachable cap t -> BPTree.insert key t = Ok (tt, t') -> reachable cap t'.

(** The root slot after [BPTree.insert] has handled the promotion. *)
Definition new_root (cap : Z) (root : pointer) (promo : option (Z * pointer)) : pointer :=
  match promo with
  | Some (pkey, ppointer) => Node [pkey] [root; ppointer] cap
  | None => root
  end.

(** The height of the root slot after [BPTree.insert]. *)
Definition new_height (n : nat) (promo : option (Z * pointer)) : nat :=
  match promo with
  | Some _ => S n
  | None => n
  end.

(** The depth below the root slot of every leaf, left to right. *)
Fixpoint leaf_depths (p : pointer) : list nat :=
  match p with
  | Leaf _ => [0%nat]
  | Node _ pointers _ => map S (flat_map leaf_depths pointers)
  end.

(** No node below the slot holds more than [cap] keys. *)
Fixpoint nodes_within (cap : Z) (p : pointer) : bool :=
  match p with
  | Leaf _ => true
  | Node keys pointers _ => (len keys <=? cap) && forallb (nodes_within cap) pointers
  end.

(** No leaf of [l] holds more than [cap] keys. *)
Definition leaves_within (cap : Z) (s : store) (l : list addr) : bool :=
  forallb (fun a => match s !! a with
                    | Some lf => len (leaf_keys lf) <=? cap
                    | None => false
                    end) l.

(** No node and no leaf of the tree holds more keys than the capacity of
    the tree. *)
Definition within_capacity (t : BPTree) : bool :=
  nodes_within (_capacity t) (_tree t) &&
  leaves_within (_capacity t) (_leaves t) (leaves_of (_tree t)).

(** Scenario A of the specification: capacity 3 after inserting 3, 8, 15, 32. *)
Definition scenario_a : BPTree :=
  mkTree (Node [15] [Leaf 0; Leaf 1] 3) 3
         [mkLeaf [3; 8] (Some 1%nat) 3; mkLeaf [15; 32] None 3].

(** ** Vocabulary of the further properties *)



(** [Q] holds of the keys and pointers of every node below the slot. *)
Fixpoint all_nodes (Q : list Z -> list pointer -> Prop) (p : pointer) : Prop :=
  match p with
  | Leaf _ => True
  | Node keys pointers _ =>
      Q keys pointers /\ foldr (fun c acc => all_nodes Q c /\ acc) True pointers
  end.

(** Once the root is a node, every leaf of the tree holds at least
    [split_index] keys. *)
Definition leaves_half_full (t : BPTree) : Prop :=
  match _tree t with
  | Leaf _ => True
  | Node _ _ _ =>
      Forall (fun a => split_index (_capacity t) <= len (keys_at (_leaves t) a))
             (leaves_of (_tree t))
  end.

(** The lines of a rendering, each closed by a newline. *)
Definition unlines (ls : list string) : string :=
  foldr (fun l acc => (l +:+ newline) +:+ acc) "" ls.

(** The slots of a node; a leaf has none. *)
Definition kids_of (p : pointer) : list pointer :=
  match p with
  | Node _ pointers _ => pointers
  | Leaf _ => []
  end.

Section RenderSpec.

Variable str_keys : list Z -> string.

(** [str] of the keys of the object in a slot. *)
Definition str_at (s : store) (p : pointer) : string :=
  match p with
  | Node keys _ _ => str_keys keys
  | Leaf a => str_keys (keys_at s a)
  end.

(** The leaves [l], each as [str] of its keys, joined by ["->"]. *)
Fixpoint leaf_line (s : store) (l : list addr) : string :=
  match l with
  | [] => ""
  | a :: l' =>
      match l' with
      | [] => str_keys (keys_at s a)
      | _ :: _ => (str_keys (keys_at s a) +:+ "->") +:+ leaf_line s l'
      end
  end.

(** The slots [ps], each as [str] of its keys followed by a space. *)
Definition slots_line (s : store) (ps : list pointer) : string :=
  foldr (fun c acc => (str_at s c +:+ " ") +:+ acc) "" ps.

(** The line of [level] in the rendering of a tree of height [h]. *)
Definition line_of (t : BPTree) (h : Z) (level : Z) : string :=
  let nk := len (tree_keys t) in
  if level =? 1 then
    str_mul (str_mul " " nk) 2 +:+ str_at (_leaves t) (_tree t)
  else if level =? h then
    leaf_line (_leaves t) (leaves_of (_tree t))
  else if level =? 2 then
    str_mul " " nk +:+ slots_line (_leaves t) (kids_of (_tree t))
  else if level =? 3 then
    str_mul " " nk +:+ slots_line (_leaves t) (flat_map kids_of (kids_of (_tree t)))
  else "".

End RenderSpec.

(** [str] of a list of integers as Python 3 prints it, for the examples. *)
Definition str_list (ks : list Z) : string :=
  "[" +:+ String.concat ", " (map pretty ks) +:+ "]".

(** Capacity 1 after inserting 1 to 17 in order: a tree of height 6. *)
Definition tall_keys : list Z :=
  [1; 2; 3; 4; 5; 6; 7; 8; 9; 10; 11; 12; 13; 14; 15; 16; 17].

Definition tall_tree : BPTree :=
  Eval vm_compute in
    match build 1 tall_keys with
    | Ok t => t
    | Err _ => mkTree (Leaf 0) 1 []
    end.

(** What a split leaves in the new node: [capacity - split_index] keys. *)
Definition min_keys (cap : Z) : Z := cap - split_index cap.

(** The node in the slot, if it is one, holds at least [r] keys and every
    node below it at least [min_keys cap]. *)
Definition filled (cap r : Z) (p : pointer) : Prop :=
  match p with
  | Leaf _ => True
  | Node keys pointers _ =>
      r <= len keys /\
      Forall (all_nodes (fun ks _ => min_keys cap <= len ks)) pointers
  end.

(** A root node holds at least one key, every other node at least
    [min_keys]. *)
Definition nodes_half_full (t : BPTree) : Prop :=
  filled (_capacity t) 1 (_tree t).

(** The tree of the driver at the end of the source file. *)
Definition Test_tree : BPTree :=
  Eval vm_compute in
    match build 3 test_keys with
    | Ok t => t
    | Err _ => mkTree (Leaf 0) 3 []
    end.

(** * Properties *)

(** ** Binary search on a partitioned list *)

Lemma bisect_left_loop_partition (x : Z) (a1 a2 : list Z) :
  Forall (fun y => y < x) a1 -> Forall (fun y => x <= y) a2 ->
  forall fuel lo hi,
    (hi - lo <= fuel)%nat -> (lo <= length a1)%nat -> (length a1 <= hi)%nat ->
    (hi <= length (a1 ++ a2))%nat ->
    bisect_left_loop fuel (a1 ++ a2) x lo hi = length a1.
Proof.
  intros H1 H2. induction fuel as [|fuel IH]; intros lo hi Hf Hlo Hhi Hlen;
    cbn [bisect_left_loop bisect_right_loop].
  - lia.
  - destruct (Nat.ltb_spec lo hi) as [Hlt|Hge]; [|lia].
    assert (Hmid : (lo <= (lo + hi) / 2 < hi)%nat).
    { split; [apply Nat.div_le_lower_bound|apply Nat.Div0.div_lt_upper_bound]; lia. }
    destruct (lookup_lt_is_Some_2 (a1 ++ a2) ((lo + hi) / 2)%nat) as [y Hy]; [lia|].
    rewrite Hy. destruct (Z.ltb_spec y x) as [Hyx|Hyx].
    + apply IH; try lia.
      destruct (Nat.lt_ge_cases ((lo + hi) / 2) (length a1)) as [?|Hin]; [lia|].
      rewrite lookup_app_r in Hy by lia.
      rewrite Forall_lookup in H2. specialize (H2 _ _ Hy). simpl in H2. lia.
    + apply IH; try lia.
      destruct (Nat.lt_ge_cases ((lo + hi) / 2) (length a1)) as [Hin|?]; [|lia].
      rewrite lookup_app_l in Hy by lia.
      rewrite Forall_lookup in H1. specialize (H1 _ _ Hy). simpl in H1. lia.
Qed.

Lemma bisect_left_partition (x : Z) (a1 a2 : list Z) :
  Forall (fun y => y < x) a1 -> Forall (fun y => x <= y) a2 ->
  bisect_left (a1 ++ a2) x = length a1.
Proof.
  intros H1 H2. unfold bisect_left.
  apply bisect_left_loop_partition; auto; rewrite ?length_app; lia.
Qed.

Lemma bisect_left_loop_bounds (a : list Z) (x : Z) :
  forall fuel lo hi,
    (lo <= hi)%nat -> (lo <= bisect_left_loop fuel a x lo hi <= hi)%nat.
Proof.
  induction fuel as [|fuel IH]; intros lo hi Hle; cbn [bisect_left_loop]; [lia|].
  destruct (Nat.ltb_spec lo hi) as [Hlt|Hge]; [|lia].
  assert (Hmid : (lo <= (lo + hi) / 2 < hi)%nat).
  { split; [apply Nat.div_le_lower_bound|apply Nat.Div0.div_lt_upper_bound]; lia. }
  destruct (a !! ((lo + hi) / 2)%nat) as [y|]; [|lia].
  destruct (y <? x).
  - specialize (IH (S ((lo + hi) / 2)) hi). lia.
  - specialize (IH lo ((lo + hi) / 2)%nat). lia.
Qed.

Lemma bisect_left_le (a : list Z) (x : Z) : (bisect_left a x <= length a)%nat.
Proof.
  unfold bisect_left.
  pose proof (bisect_left_loop_bounds a x (length a) 0 (length a)). lia.
Qed.

Lemma bisect_right_loop_partition (x : Z) (a1 a2 : list Z) :
  Forall (fun y => y <= x) a1 -> Forall (fun y => x < y) a2 ->
  forall fuel lo hi,
    (hi - lo <= fuel)%nat -> (lo <= length a1)%nat -> (length a1 <= hi)%nat ->
    (hi <= length (a1 ++ a2))%nat ->
    bisect_right_loop fuel (a1 ++ a2) x lo hi = length a1.
Proof.
  intros H1 H2. induction fuel as [|fuel IH]; intros lo hi Hf Hlo Hhi Hlen;
    cbn [bisect_left_loop bisect_right_loop].
  - lia.
  - destruct (Nat.ltb_spec lo hi) as [Hlt|Hge]; [|lia].
    assert (Hmid : (lo <= (lo + hi) / 2 < hi)%nat).
    { split; [apply Nat.div_le_lower_bound|apply Nat.Div0.div_lt_upper_bound]; lia. }
    destruct (lookup_lt_is_Some_2 (a1 ++ a2) ((lo + hi) / 2)%nat) as [y Hy]; [lia|].
    rewrite Hy. destruct (Z.ltb_spec x y) as [Hyx|Hyx].
    + apply IH; try lia.
      destruct (Nat.lt_ge_cases ((lo + hi) / 2) (length a1)) as [Hin|?]; [|lia].
      rewrite lookup_app_l in Hy by lia.
      rewrite Forall_lookup in H1. specialize (H1 _ _ Hy). simpl in H1. lia.
    + apply IH; try lia.
      destruct (Nat.lt_ge_cases ((lo + hi) / 2) (length a1)) as [?|Hin]; [lia|].
      rewrite lookup_app_r in Hy by lia.
      rewrite Forall_lookup in H2. specialize (H2 _ _ Hy). simpl in H2. lia.
Qed.

Lemma bisect_right_partition (x : Z) (a1 a2 : list Z) :
  Forall (fun y => y <= x) a1 -> Forall (fun y => x < y) a2 ->
  bisect_right (a1 ++ a2) x = length a1.
Proof.
  intros H1 H2. unfold bisect_right.
  apply bisect_right_loop_partition; auto; rewrite ?length_app; lia.
Qed.

(** ** The list primitives on the indices the tree uses *)

Lemma list_insert_at_app {A} (l1 l2 : list A) (x : A) :
  list_insert_at (length l1) x (l1 ++ l2) = l1 ++ x :: l2.
Proof.
  unfold list_insert_at. by rewrite take_app_length, drop_app_length.
Qed.

Lemma length_list_insert_at {A} (i : nat) (x : A) (l : list A) :
  length (list_insert_at i x l) = S (length l).
Proof.
  unfold list_insert_at.
  rewrite length_app. simpl. rewrite length_take, length_drop. lia.
Qed.

Lemma list_remove_lookup (l : list Z) (j : nat) (x : Z) :
  NoDup l -> l !! j = Some x -> list_remove x l = take j l ++ drop (S j) l.
Proof.
  intros Hnd. revert j. induction Hnd as [|y l Hy Hnd IH]; intros j Hj.
  - done.
  - destruct j as [|j]; simpl in *.
    + injection Hj as ->. rewrite Z.eqb_refl. by rewrite drop_0.
    + destruct (Z.eqb_spec y x) as [->|Hne].
      * exfalso. apply Hy. eapply list_elem_of_lookup_2; eauto.
      * f_equal. by apply IH.
Qed.

Lemma getitem_nonneg {A} (l : list A) (n : Z) :
  0 <= n -> getitem l n = l !! Z.to_nat n.
Proof.
  intros Hn. unfold getitem. destruct (Z.leb_spec 0 n); [done|lia].
Qed.

Lemma slice_bound_nonneg {A} (l : list A) (n : Z) :
  0 <= n -> slice_bound l n = Z.to_nat n.
Proof.
  intros Hn. unfold slice_bound. destruct (Z.ltb_spec n 0); [lia|done].
Qed.

Lemma list_contains_true (x : Z) (l : list Z) :
  list_contains x l = true <-> x ∈ l.
Proof.
  unfold list_contains. induction l as [|y l IH]; cbn [existsb].
  - split; [done|by intros ?%elem_of_nil].
  - rewrite orb_true_iff, IH, elem_of_cons, Z.eqb_eq. tauto.
Qed.

Lemma list_contains_elem_of (x : Z) (l : list Z) :
  list_contains x l = bool_decide (x ∈ l).
Proof.
  destruct (list_contains x l) eqn:E; symmetry.
  - apply bool_decide_eq_true. by apply list_contains_true.
  - apply bool_decide_eq_false. rewrite <- list_contains_true. by rewrite E.
Qed.

Lemma split_index_bounds (cap : Z) :
  1 <= cap -> 1 <= split_index cap <= cap.
Proof.
  intros Hc. unfold split_index.
  split; [apply Z.div_le_lower_bound|apply Z.div_le_upper_bound]; lia.
Qed.

(** A strictly increasing list is partitioned by any key. *)
Lemma sorted_partition_lt (x : Z) (l : list Z) :
  StronglySorted Z.lt l ->
  exists l1 l2, l = l1 ++ l2 /\ Forall (fun y => y < x) l1 /\ Forall (fun y => x <= y) l2.
Proof.
  induction 1 as [|y l Hs IH Hy].
  - exists [], []. by repeat constructor.
  - destruct (Z.lt_ge_cases y x) as [Hlt|Hge].
    + destruct IH as (l1 & l2 & -> & H1 & H2).
      exists (y :: l1), l2. repeat split; auto.
    + exists [], (y :: l). repeat split; auto.
      constructor; [done|]. eapply Forall_impl; [exact Hy|]. simpl. lia.
Qed.

Lemma sorted_partition_le (x : Z) (l : list Z) :
  StronglySorted Z.lt l ->
  exists l1 l2, l = l1 ++ l2 /\ Forall (fun y => y <= x) l1 /\ Forall (fun y => x < y) l2.
Proof.
  induction 1 as [|y l Hs IH Hy].
  - exists [], []. by repeat constructor.
  - destruct (Z.le_gt_cases y x) as [Hle|Hgt].
    + destruct IH as (l1 & l2 & -> & H1 & H2).
      exists (y :: l1), l2. repeat split; auto.
    + exists [], (y :: l). repeat split; auto.
      constructor; [done|]. eapply Forall_impl; [exact Hy|]. simpl. lia.
Qed.

Lemma sorted_lt_NoDup (l : list Z) : StronglySorted Z.lt l -> NoDup l.
Proof.
  induction 1 as [|y l Hs IH Hy]; constructor; auto.
  intros Hin. rewrite Forall_forall in Hy. specialize (Hy _ Hin). lia.
Qed.

(** ** Ranges, separators and the shape of a subtree *)

Lemma lo_lt_le lo k : lo_lt lo k -> lo_le lo k.
Proof. destruct lo; simpl; lia. Qed.

Lemma lo_lt_trans lo k k' : lo_lt lo k -> k <= k' -> lo_lt lo k'.
Proof. destruct lo; simpl; lia. Qed.

Lemma lo_le_trans lo k k' : lo_le lo k -> k <= k' -> lo_le lo k'.
Proof. destruct lo; simpl; lia. Qed.

Lemma lt_hi_trans k k' hi : k <= k' -> lt_hi k' hi -> lt_hi k hi.
Proof. destruct hi; simpl; lia. Qed.

Lemma bps_keys_above P lo hi ks cs bl :
  bps P lo hi ks cs bl -> Forall (lo_lt lo) ks /\ Forall (fun k => lt_hi k hi) ks.
Proof.
  induction 1 as [|lo hi k ks c cs bl1 bl2 HP Hlo Hhi Hrest [IH1 IH2]]; [by split|].
  split; constructor; auto.
  eapply Forall_impl; [exact IH1|]. simpl. intros k' Hk'.
  eapply lo_lt_trans; [exact Hlo|lia].
Qed.

Lemma bps_keys_sorted P lo hi ks cs bl :
  bps P lo hi ks cs bl -> StronglySorted Z.lt ks.
Proof.
  induction 1 as [|lo hi k ks c cs bl1 bl2 HP Hlo Hhi Hrest IH]; constructor; auto.
  by apply bps_keys_above in Hrest as [? _].
Qed.


(** The child that serves [key], with what it takes to put back either the
    child after the call or the child and the sibling it promoted. *)
Lemma bps_focus P lo hi ks cs bl key :
  bps P lo hi ks cs bl -> in_range lo hi key ->
  exists ks1 ks2 cs1 c cs2 b1 bc b2 lo' hi',
    ks = ks1 ++ ks2 /\
    Forall (fun k => k <= key) ks1 /\ Forall (fun k => key < k) ks2 /\
    cs = cs1 ++ c :: cs2 /\ length cs1 = length ks1 /\
    bl = b1 ++ bc ++ b2 /\
    P lo' hi' c bc /\ in_range lo' hi' key /\
    (forall c' bc', P lo' hi' c' bc' ->
       bps P lo hi ks (cs1 ++ c' :: cs2) (b1 ++ bc' ++ b2)) /\
    (forall pk c1 c2 ba bb,
       P lo' (Some pk) c1 ba -> P (Some pk) hi' c2 bb ->
       lo_lt lo' pk -> lt_hi pk hi' ->
       bps P lo hi (ks1 ++ pk :: ks2) (cs1 ++ c1 :: c2 :: cs2) (b1 ++ (ba ++ bb) ++ b2) /\
       Forall (fun k => k < pk) ks1 /\ Forall (fun k => pk <= k) ks2).
Proof.
  induction 1 as [lo hi c bl HP|lo hi k ks c cs bl1 bl2 HP Hlo Hhi Hrest IH];
    intros [Hkl Hkh].
  - exists [], [], [], c, [], [], bl, [], lo, hi. simpl.
    rewrite app_nil_r. repeat split; auto.
    + intros c' bc' HP'. rewrite app_nil_r. by constructor.
    + rewrite app_nil_r. constructor; auto. by constructor.
  - destruct (Z.lt_ge_cases key k) as [Hlt|Hge].
    + exists [], (k :: ks), [], c, cs, [], bl1, bl2, lo, (Some k). simpl.
      pose proof (bps_keys_above _ _ _ _ _ _ Hrest) as [Habove _].
      repeat split; auto.
      * constructor; [done|].
        eapply Forall_impl; [exact Habove|]. simpl. lia.
      * intros c' bc' HP'. by constructor.
      * rewrite <- app_assoc. constructor; auto.
        -- eapply lt_hi_trans; [|exact Hhi]. simpl in *. lia.
        -- by constructor.
      * constructor; [simpl in *; lia|].
        eapply Forall_impl; [exact Habove|]. simpl in *. lia.
    + destruct IH as (ks1 & ks2 & cs1 & c0 & cs2 & b1 & bc & b2 & lo' & hi' &
                      -> & Hk1 & Hk2 & -> & Hlen & -> & HP0 & Hin & Hnone & Hsome).
      { split; [simpl; lia|done]. }
      exists (k :: ks1), ks2, (c :: cs1), c0, cs2, (bl1 ++ b1), bc, b2, lo', hi'.
      simpl. rewrite <- !app_assoc. repeat split; auto; try apply Hin.
      * intros c' bc' HP'. rewrite <- app_assoc. constructor; auto.
      * destruct (Hsome pk c1 c2 ba bb) as (Hb & _ & _); auto.
        rewrite <- (app_assoc bl1). constructor; auto.
      * destruct (Hsome pk c1 c2 ba bb) as (Hb & Hf1 & _); auto.
        constructor; [|done].
        apply bps_keys_above in Hb as [Hb _].
        rewrite Forall_app, Forall_cons in Hb. simpl in Hb. tauto.
      * by destruct (Hsome pk c1 c2 ba bb) as (_ & _ & Hf2).
Qed.

(** Cutting the children at the separator of index [j]. *)
Lemma bps_split P lo hi ks cs bl (j : nat) (pk : Z) :
  bps P lo hi ks cs bl -> ks !! j = Some pk ->
  exists ba bb,
    bl = ba ++ bb /\
    bps P lo (Some pk) (take j ks) (take (S j) cs) ba /\
    bps P (Some pk) hi (drop (S j) ks) (drop (S j) cs) bb /\
    lo_lt lo pk /\ lt_hi pk hi.
Proof.
  intros Hb. revert j.
  induction Hb as [lo hi c bl HP|lo hi k ks c cs bl1 bl2 HP Hlo Hhi Hrest IH];
    intros j Hj; [done|].
  destruct j as [|j]; simpl in Hj.
  - injection Hj as ->. exists bl1, bl2. simpl. rewrite !drop_0.
    repeat split; auto. destruct cs; by constructor.
  - destruct (IH j Hj) as (ba & bb & -> & Ha & Hbb & Hl & Hh).
    exists (bl1 ++ ba), bb. rewrite app_assoc. repeat split; auto.
    + change (take (S j) (k :: ks)) with (k :: take j ks).
      change (take (S (S j)) (c :: cs)) with (c :: take (S j) cs).
      constructor; auto.
    + eapply lo_lt_trans; [exact Hlo|]. simpl in Hl. lia.
Qed.

(** ** Running the monad *)

Lemma bind_ok {A B} (m : M A) (k : A -> M B) (s s' : store) (a : A) :
  m s = Ok (a, s') -> bind m k s = k a s'.
Proof. unfold bind. by intros ->. Qed.

Lemma on_nth_app {A} (f : pointer -> M A) (cs1 cs2 : list pointer) (c : pointer) :
  on_nth f (cs1 ++ c :: cs2) (length cs1) = f c.
Proof. induction cs1 as [|c1 cs1 IH]; simpl; auto. Qed.

Lemma on_nth_head {A} (f : pointer -> M A) (cs : list pointer) (c : pointer) :
  on_nth f (c :: cs) 0 = f c.
Proof. done. Qed.

Lemma insert_middle {A} (l1 l2 : list A) (x y : A) :
  <[length l1 := y]> (l1 ++ x :: l2) = l1 ++ y :: l2.
Proof.
  rewrite insert_app_r_alt by lia. by rewrite Nat.sub_diag.
Qed.

(** ** [BPTreeNode.insert_here] *)

Lemma insert_here_fits (keys : list Z) (pointers : list pointer) (cap : Z)
    (position : nat) (key : Z) (q : pointer) (s : store) :
  len (list_insert_at position key keys) <= cap ->
  BPTreeNode.insert_here keys pointers cap position key q s =
    Ok ((Node (list_insert_at position key keys)
              (list_insert_at (position + 1) q pointers) cap, None), s).
Proof.
  intros Hfit. unfold BPTreeNode.insert_here.
  destruct (Z.ltb_spec cap (len (list_insert_at position key keys))); [lia|done].
Qed.

Lemma insert_here_splits (keys : list Z) (pointers : list pointer) (cap : Z)
    (position : nat) (key : Z) (q : pointer) (s : store) :
  let keys' := list_insert_at position key keys in
  let pointers' := list_insert_at (position + 1) q pointers in
  let j := Z.to_nat (split_index cap) in
  0 <= split_index cap -> cap < len keys' -> NoDup keys' ->
  exists pkey,
    keys' !! j = Some pkey /\
    BPTreeNode.insert_here keys pointers cap position key q s =
      Ok ((Node (take j keys') (take (S j) pointers') cap,
           Some (pkey, Node (drop (S j) keys') (drop (S j) pointers') cap)), s).
Proof.
  intros keys' pointers' j Hsi Hover Hnd.
  assert (Hlen : (j < length keys')%nat).
  { unfold j, split_index in *. unfold len in Hover.
    assert (1 <= Z.of_nat (length keys')).
    { unfold keys'. rewrite length_list_insert_at. lia. }
    assert ((cap + 1) / 2 < Z.of_nat (length keys')); [|lia].
    apply Z.div_lt_upper_bound; lia. }
  destruct (lookup_lt_is_Some_2 keys' j Hlen) as [pkey Hpk].
  exists pkey. split; [done|].
  unfold BPTreeNode.insert_here. fold keys' pointers'.
  destruct (Z.ltb_spec cap (len keys')); [|lia].
  rewrite getitem_nonneg by done. fold j. rewrite Hpk. simpl.
  unfold bind, ret. simpl.
  rewrite (list_remove_lookup keys' j pkey Hnd Hpk).
  unfold slice_from, slice_to.
  rewrite !slice_bound_nonneg by lia.
  replace (Z.to_nat (split_index cap + 1)) with (S j) by (unfold j; lia).
  fold j.
  assert (Htk : length (take j keys') = j) by (rewrite length_take; lia).
  by rewrite take_app_length', drop_app_length'.
Qed.

(** ** [BPTreeLeaf.insert] *)

Lemma leaf_eta (lf : BPTreeLeaf) :
  mkLeaf (leaf_keys lf) (leaf_next lf) (leaf_capacity lf) = lf.
Proof. by destruct lf. Qed.

Lemma leaf_insert_eq (s : store) (a : addr) (lf : BPTreeLeaf) (key : Z) :
  s !! a = Some lf ->
  let ks := keys_after_insert (leaf_keys lf) key in
  let cap := leaf_capacity lf in
  let si := split_index cap in
  BPTreeLeaf.insert a key s =
    if cap <? len ks then
      match getitem (slice_from ks si) 0 with
      | Some pk =>
          Ok (Some (pk, Leaf (length s)),
              <[a := mkLeaf (slice_to ks si) (Some (length s)) cap]> s
                ++ [mkLeaf (slice_from ks si) (leaf_next lf) cap])
      | None => Err IndexError
      end
    else Ok (None, <[a := mkLeaf ks (leaf_next lf) cap]> s).
Proof.
  intros Ha ks cap si.
  assert (Hlt : (a < length s)%nat) by (eapply lookup_lt_Some; eauto).
  set (s1 := <[a := mkLeaf ks (leaf_next lf) cap]> s).
  assert (Hstep :
    (if (bisect_left (leaf_keys lf) key =? length (leaf_keys lf))%nat then
       set_keys a (list_insert_at (bisect_left (leaf_keys lf) key) key (leaf_keys lf))
     else
       let* k := lift_opt (leaf_keys lf !! bisect_left (leaf_keys lf) key) in
       if negb (k =? key)
       then set_keys a (list_insert_at (bisect_left (leaf_keys lf) key) key (leaf_keys lf))
       else ret tt) s = Ok (tt, s1)).
  { unfold s1, ks, keys_after_insert, cap.
    destruct (bisect_left (leaf_keys lf) key =? length (leaf_keys lf))%nat eqn:E.
    - unfold set_keys. by rewrite Ha.
    - apply Nat.eqb_neq in E.
      destruct (leaf_keys lf !! bisect_left (leaf_keys lf) key) as [k|] eqn:Hk;
        unfold bind; simpl.
      + destruct (negb (k =? key)); unfold set_keys, ret; rewrite ?Ha; [done|].
        by rewrite leaf_eta, list_insert_id.
      + apply lookup_ge_None in Hk.
        pose proof (bisect_left_le (leaf_keys lf) key). lia. }
  unfold BPTreeLeaf.insert.
  rewrite (bind_ok _ _ s s lf) by (unfold get_leaf; by rewrite Ha).
  rewrite (bind_ok _ _ s s1 tt) by exact Hstep.
  assert (Ha1 : s1 !! a = Some (mkLeaf ks (leaf_next lf) cap)).
  { unfold s1. by apply list_lookup_insert_eq. }
  rewrite (bind_ok _ _ s1 s1 _) by (unfold get_leaf; by rewrite Ha1).
  cbn [leaf_keys leaf_capacity leaf_next]. fold si.
  destruct (cap <? len ks); [|done].
  unfold bind, alloc, set_keys, set_next, get_leaf.
  assert (Hl1 : length s1 = length s) by (unfold s1; apply length_insert).
  rewrite Hl1.
  rewrite lookup_app_l, Ha1 by lia.
  cbn [leaf_keys leaf_capacity leaf_next].
  rewrite list_lookup_insert_eq by (rewrite length_app; lia).
  cbn [leaf_keys leaf_capacity leaf_next].
  rewrite list_insert_insert_eq.
  rewrite insert_app_l by lia.
  unfold s1. rewrite list_insert_insert_eq.
  rewrite lookup_app_r by (rewrite length_insert; lia).
  rewrite length_insert, Nat.sub_diag. cbn [lookup list_lookup leaf_keys].
  by destruct (getitem (slice_from ks si) 0).
Qed.

Lemma keys_after_insert_sorted (keys : list Z) (key : Z) :
  StronglySorted Z.lt keys ->
  StronglySorted Z.lt (keys_after_insert keys key) /\
  (forall x, x ∈ keys_after_insert keys key <-> x = key \/ x ∈ keys) /\
  (key ∈ keys -> keys_after_insert keys key = keys) /\
  (key ∉ keys -> length (keys_after_insert keys key) = S (length keys)).
Proof.
  intros Hs.
  destruct (sorted_partition_lt key keys Hs) as (l1 & l2 & -> & H1 & H2).
  assert (Hins : StronglySorted Z.lt (l1 ++ key :: l2) <-> key ∉ l2).
  { apply StronglySorted_app in Hs as (Hx & Hs1 & Hs2). split.
    - intros (_ & _ & Hk)%StronglySorted_app. apply StronglySorted_cons in Hk as [Hk _].
      intros Hin. rewrite Forall_forall in Hk. specialize (Hk _ Hin). lia.
    - intros Hnin. apply StronglySorted_app. split_and!; auto.
      + intros x1 x2 Hx1 [->|Hx2]%elem_of_cons; [|by apply Hx].
        rewrite Forall_forall in H1. by apply H1.
      + apply StronglySorted_cons. split; [|done].
        rewrite Forall_forall in H2 |- *. intros y Hy.
        specialize (H2 _ Hy). simpl in H2.
        assert (y <> key) by (by intros ->). lia. }
  assert (Hnl1 : key ∉ l1).
  { intros Hin. rewrite Forall_forall in H1. specialize (H1 _ Hin). simpl in H1. lia. }
  unfold keys_after_insert. rewrite (bisect_left_partition key l1 l2 H1 H2).
  rewrite list_insert_at_app.
  destruct l2 as [|k l2].
  - rewrite app_nil_r, Nat.eqb_refl. split_and!.
    + apply Hins. by intros ?%elem_of_nil.
    + intros x. rewrite elem_of_app, list_elem_of_singleton. tauto.
    + done.
    + intros _. rewrite length_app. simpl. lia.
  - destruct (Nat.eqb_spec (length l1) (length (l1 ++ k :: l2))) as [E|_].
    { rewrite length_app in E. simpl in E. lia. }
    rewrite list_lookup_middle by done.
    destruct (Z.eqb_spec k key) as [->|Hne]; simpl.
    + split_and!; auto.
      * intros x. set_solver.
      * intros Hnin. exfalso. apply Hnin. rewrite elem_of_app, elem_of_cons. auto.
    + assert (Hnin : key ∉ k :: l2).
      { intros [->|Hin]%elem_of_cons; [done|].
        apply StronglySorted_app in Hs as (_ & _ & Hs2).
        apply StronglySorted_cons in Hs2 as [Hk _].
        rewrite Forall_forall in Hk. specialize (Hk _ Hin).
        apply Forall_cons in H2 as [H2 _]. lia. }
      split_and!.
      * by apply Hins.
      * intros x. set_solver.
      * intros Hin. exfalso. apply elem_of_app in Hin as [?|?]; auto.
      * intros _. rewrite !length_app. simpl. lia.
Qed.

(** What an insert does to the leaf it reaches: the leaf is updated in
    place, or it is cut in two and the right half is allocated at the end of
    the store. *)
Lemma leaf_insert_spec (cap : Z) (s : store) (a : addr) (lf : BPTreeLeaf)
    (lo hi : bound) (key : Z) :
  1 <= cap -> s !! a = Some lf -> leaf_ok cap lf lo hi -> in_range lo hi key ->
  (exists lf',
      BPTreeLeaf.insert a key s = Ok (None, <[a := lf']> s) /\
      leaf_ok cap lf' lo hi /\
      leaf_next lf' = leaf_next lf /\
      (forall x, x ∈ leaf_keys lf' <-> x = key \/ x ∈ leaf_keys lf) /\
      (key ∈ leaf_keys lf -> lf' = lf))
  \/
  (exists lf' new pk,
      BPTreeLeaf.insert a key s =
        Ok (Some (pk, Leaf (length s)), <[a := lf']> s ++ [new]) /\
      leaf_ok cap lf' lo (Some pk) /\ leaf_ok cap new (Some pk) hi /\
      lo_lt lo pk /\ lt_hi pk hi /\
      leaf_next lf' = Some (length s) /\ leaf_next new = leaf_next lf /\
      (forall x, x ∈ leaf_keys lf' ++ leaf_keys new <-> x = key \/ x ∈ leaf_keys lf) /\
      key ∉ leaf_keys lf).
Proof.
  intros Hcap Ha (Hc & Hlen & Hs & Hr) Hkey.
  pose proof (leaf_insert_eq s a lf key Ha) as Heq. cbv zeta in Heq.
  destruct (keys_after_insert_sorted (leaf_keys lf) key Hs) as (Hs' & Hel & Hdup & Hnew).
  set (ks := keys_after_insert (leaf_keys lf) key) in *.
  rewrite Hc in Heq.
  assert (Hr' : Forall (in_range lo hi) ks).
  { rewrite Forall_forall in Hr |- *. intros x [->|Hx]%Hel; auto. }
  destruct (Z.ltb_spec cap (len ks)) as [Hover|Hfit].
  - right.
    assert (Hnin : key ∉ leaf_keys lf).
    { intros Hin. rewrite (Hdup Hin) in Hover. lia. }
    specialize (Hnew Hnin). unfold len in *.
    pose proof (split_index_bounds cap Hcap) as Hsi.
    set (j := Z.to_nat (split_index cap)).
    assert (Hj : (1 <= j < length ks)%nat) by (unfold j; lia).
    unfold slice_from, slice_to in Heq.
    rewrite slice_bound_nonneg in Heq by lia. fold j in Heq.
    destruct (lookup_lt_is_Some_2 ks j) as [pk Hpk]; [lia|].
    destruct (lookup_lt_is_Some_2 ks 0%nat) as [k0 Hk0]; [lia|].
    rewrite getitem_nonneg in Heq by lia.
    change (Z.to_nat 0) with 0%nat in Heq.
    rewrite lookup_drop, Nat.add_0_r, Hpk in Heq.
    pose proof (take_drop j ks) as Hsplit.
    rewrite (drop_S ks pk j Hpk) in Hsplit.
    assert (Hsorted := Hs'). rewrite <- Hsplit in Hsorted.
    apply StronglySorted_app in Hsorted as (Hx & Hs1 & Hs2).
    assert (Hk0in : k0 ∈ take j ks).
    { apply list_elem_of_lookup. exists 0%nat. rewrite lookup_take_lt by lia. done. }
    assert (Hpkin : pk ∈ ks) by (eapply list_elem_of_lookup_2; eauto).
    assert (Hk0r : in_range lo hi k0).
    { rewrite Forall_forall in Hr'. apply Hr'. eapply list_elem_of_lookup_2; eauto. }
    assert (Hpkr : in_range lo hi pk).
    { rewrite Forall_forall in Hr'. by apply Hr'. }
    assert (Hk0pk : k0 < pk) by (apply Hx; [done|left]).
    eexists _, _, pk. split; [exact Heq|].
    split_and!; simpl.
    + split_and!; simpl; auto.
      * unfold len. rewrite length_take. lia.
      * rewrite Forall_forall in Hr' |- *. intros x Hx1. split.
        -- apply Hr'. rewrite <- Hsplit. apply elem_of_app. by left.
        -- simpl. apply Hx; [done|left].
    + split_and!; simpl; auto.
      * unfold len. rewrite length_drop. lia.
      * rewrite (drop_S ks pk j Hpk). done.
      * rewrite (drop_S ks pk j Hpk).
        apply StronglySorted_cons in Hs2 as [Hgt _].
        rewrite Forall_forall in Hr', Hgt. rewrite Forall_forall.
        intros x Hx2. split.
        -- simpl. apply elem_of_cons in Hx2 as [->|Hx2]; [lia|].
           specialize (Hgt _ Hx2). lia.
        -- apply Hr'. rewrite <- Hsplit. apply elem_of_app. by right.
    + destruct Hk0r as [Hl _]. destruct lo; simpl in *; lia.
    + apply Hpkr.
    + done.
    + done.
    + intros x. rewrite take_drop. apply Hel.
    + done.
  - left. eexists. split; [exact Heq|]. split_and!; simpl; auto.
    + split_and!; simpl; auto.
    + intros Hin. rewrite (Hdup Hin), <- Hc. apply leaf_eta.
Qed.

(** ** Descending to a leaf and coming back *)

Lemma insert_here_grown (cap : Z) (n : nat) (lo hi : bound) (ks : list Z)
    (cs : list pointer) (position : nat) (key : Z) (q : pointer)
    (bl : list binfo) (s : store) :
  1 <= cap -> len ks <= cap ->
  bps (shape cap n) lo hi (list_insert_at position key ks)
      (list_insert_at (position + 1) q cs) bl ->
  exists p' promo,
    BPTreeNode.insert_here ks cs cap position key q s = Ok ((p', promo), s) /\
    grown cap (S n) lo hi p' promo bl.
Proof.
  intros Hcap Hlen Hb.
  pose proof (length_list_insert_at position key ks) as Hl.
  destruct (Z.lt_ge_cases cap (len (list_insert_at position key ks))) as [Hover|Hfit].
  - pose proof (split_index_bounds cap Hcap) as Hsi.
    destruct (insert_here_splits ks cs cap position key q s) as (pkey & Hpk & Heq);
      [lia|done|eapply sorted_lt_NoDup, bps_keys_sorted; eauto|].
    destruct (bps_split _ _ _ _ _ _ _ _ Hb Hpk) as (ba & bb & -> & Ha & Hbb & Hlo & Hhi).
    eexists _, _. split; [exact Heq|].
    exists ba, bb. unfold len in *. simpl. split_and!; auto.
    + unfold len. rewrite length_take. lia.
    + unfold len. rewrite length_drop. lia.
  - eexists _, _. split; [apply insert_here_fits; lia|].
    simpl. auto.
Qed.

Lemma insert_node_eq (ks : list Z) (cs : list pointer) (cap key : Z) :
  BPTreeNode.insert (Node ks cs cap) key =
    let* r := on_nth (fun c => BPTreeNode.insert c key) cs (bisect_right ks key) in
    match r.2 with
    | Some (pkey, ppointer) =>
        BPTreeNode.insert_here ks (<[bisect_right ks key := r.1]> cs) cap
          (bisect_left ks pkey) pkey ppointer
    | None => ret (Node ks (<[bisect_right ks key := r.1]> cs) cap, None)
    end.
Proof. done. Qed.

Lemma find_node_eq (ks : list Z) (cs : list pointer) (cap key : Z) :
  BPTreeNode.find (Node ks cs cap) key =
    on_nth (fun c => BPTreeNode.find c key) cs (bisect_right ks key).
Proof. done. Qed.

(** The leaf that [find] and [insert] reach for [key], and how the result of
    the leaf's insert comes back through the nodes above it. *)
Lemma descend (cap : Z) :
  1 <= cap ->
  forall n lo hi p bl key,
    shape cap n lo hi p bl -> in_range lo hi key ->
    exists b1 a lo_a hi_a b2,
      bl = b1 ++ (a, (lo_a, hi_a)) :: b2 /\ in_range lo_a hi_a key /\
      (forall s, BPTreeNode.find p key s = BPTreeLeaf.find a key s) /\
      (forall s s', BPTreeLeaf.insert a key s = Ok (None, s') ->
                    BPTreeNode.insert p key s = Ok ((p, None), s')) /\
      (forall s s' pk a',
          BPTreeLeaf.insert a key s = Ok (Some (pk, Leaf a'), s') ->
          lo_lt lo_a pk -> lt_hi pk hi_a ->
          exists p' promo,
            BPTreeNode.insert p key s = Ok ((p', promo), s') /\
            grown cap n lo hi p' promo
              (b1 ++ (a, (lo_a, Some pk)) :: (a', (Some pk, hi_a)) :: b2)).
Proof.
  intros Hcap. induction n as [|n IH]; intros lo hi p bl key Hshape Hkey.
  - destruct p as [a|]; [|done]. simpl in Hshape. subst bl.
    exists [], a, lo, hi, []. split_and!; auto.
    + intros s s' Hleaf. simpl. by rewrite (bind_ok _ _ _ _ _ Hleaf).
    + intros s s' pk a' Hleaf Hl Hh. eexists _, _. split.
      * simpl. by rewrite (bind_ok _ _ _ _ _ Hleaf).
      * simpl. exists [(a, (lo, Some pk))], [(a', (Some pk, hi))]. by split_and!.
  - destruct p as [|ks cs c]; [done|]. destruct Hshape as (-> & Hlen & Hb).
    destruct (bps_focus _ _ _ _ _ _ key Hb Hkey)
      as (ks1 & ks2 & cs1 & c0 & cs2 & b1 & bc & b2 & lo' & hi' &
          -> & Hk1 & Hk2 & -> & Hcl & -> & HP0 & Hin & Hnone & Hsome).
    destruct (IH _ _ _ _ _ HP0 Hin)
      as (b1' & a & lo_a & hi_a & b2' & -> & Hra & Hfind & Hins0 & Hins1).
    assert (Hi : bisect_right (ks1 ++ ks2) key = length cs1).
    { rewrite Hcl. by apply bisect_right_partition. }
    exists (b1 ++ b1'), a, lo_a, hi_a, (b2' ++ b2).
    split_and!.
    + by rewrite <- !app_assoc.
    + done.
    + intros s. rewrite find_node_eq, Hi, on_nth_app. apply Hfind.
    + intros s s' Hleaf. rewrite insert_node_eq, Hi, on_nth_app.
      rewrite (bind_ok _ _ _ _ _ (Hins0 _ _ Hleaf)). simpl.
      by rewrite insert_middle.
    + intros s s' pk a' Hleaf Hl Hh.
      destruct (Hins1 _ _ _ _ Hleaf Hl Hh) as (c' & promo & Hc' & Hg).
      rewrite insert_node_eq, Hi, on_nth_app.
      rewrite (bind_ok _ _ _ _ _ Hc'). cbn [fst snd].
      rewrite insert_middle.
      assert (Hbl : (b1 ++ b1') ++ (a, (lo_a, Some pk)) :: (a', (Some pk, hi_a)) :: b2' ++ b2
                    = b1 ++ (b1' ++ (a, (lo_a, Some pk)) :: (a', (Some pk, hi_a)) :: b2') ++ b2)
        by (by rewrite <- !app_assoc).
      rewrite Hbl. clear Hbl.
      destruct promo as [[pk' q]|]; simpl in Hg.
      * destruct Hg as (ba & bb & Hbl & Hsa & Hsb & Hlo' & Hhi'). rewrite Hbl.
        destruct (Hsome pk' c' q ba bb Hsa Hsb Hlo' Hhi') as (Hb' & Hf1 & Hf2).
        rewrite (bisect_left_partition pk' ks1 ks2 Hf1 Hf2).
        apply insert_here_grown; auto.
        rewrite list_insert_at_app.
        rewrite <- Hcl, Nat.add_1_r.
        replace (S (length cs1)) with (length (cs1 ++ [c'])) by (rewrite length_app; simpl; lia).
        replace (cs1 ++ c' :: cs2) with ((cs1 ++ [c']) ++ cs2) by (by rewrite <- app_assoc).
        rewrite list_insert_at_app. by rewrite <- app_assoc.
      * eexists _, _. split; [done|]. simpl. split_and!; auto.
Qed.

(** ** The leaves of a tree in the store *)

Lemma contents_app (s : store) (l1 l2 : list addr) :
  contents s (l1 ++ l2) = contents s l1 ++ contents s l2.
Proof.
  induction l1 as [|a l1 IH]; simpl; [done|]. by rewrite IH, app_assoc.
Qed.

Lemma contents_agree (l : list addr) (s s' : store) :
  agree_on l s s' -> contents s' l = contents s l.
Proof.
  induction l as [|a l IH]; intros Hag; simpl; [done|].
  rewrite IH by (intros x Hx; apply Hag; by right).
  unfold keys_at. rewrite (Hag a) by left. done.
Qed.

Lemma chain_agree (l : list addr) (s s' : store) (nxt : option addr) :
  agree_on l s s' -> chain s l nxt -> chain s' l nxt.
Proof.
  induction l as [|a l IH]; intros Hag; simpl; [done|].
  intros [(lf & Ha & Hn) Hc]. split.
  - exists lf. rewrite (Hag a) by left. done.
  - apply IH; [|done]. intros x Hx. apply Hag. by right.
Qed.

Lemma leaves_ok_agree (cap : Z) (bl : list binfo) (s s' : store) :
  agree_on bl.*1 s s' -> leaves_ok cap s bl -> leaves_ok cap s' bl.
Proof.
  intros Hag Hok. unfold leaves_ok in *. rewrite Forall_forall in Hok |- *.
  intros b Hb. destruct (Hok b Hb) as (lf & Ha & Hlf).
  exists lf. split; [|done]. rewrite Hag; [done|].
  apply list_elem_of_fmap. by exists b.
Qed.

Lemma leaves_ok_valid (cap : Z) (bl : list binfo) (s : store) :
  leaves_ok cap s bl -> forall x, x ∈ bl.*1 -> (x < length s)%nat.
Proof.
  intros Hok x (b & -> & Hb)%list_elem_of_fmap.
  unfold leaves_ok in Hok. rewrite Forall_forall in Hok.
  destruct (Hok b Hb) as (lf & Ha & _). eapply lookup_lt_Some; eauto.
Qed.

(** Writing the leaf [a] and allocating leaves leaves the others alone. *)
Lemma agree_on_update (l : list addr) (s ext : store) (a : addr) (lf : BPTreeLeaf) :
  a ∉ l -> (forall x, x ∈ l -> (x < length s)%nat) ->
  agree_on l s (<[a := lf]> s ++ ext).
Proof.
  intros Hna Hvalid x Hx.
  rewrite lookup_app_l by (rewrite length_insert; auto).
  apply list_lookup_insert_ne. by intros ->.
Qed.

Lemma chain_app (s : store) (l1 l2 : list addr) (a : addr) (nxt : option addr) :
  chain s (l1 ++ a :: l2) nxt <-> chain s l1 (Some a) /\ chain s (a :: l2) nxt.
Proof.
  induction l1 as [|x l1 IH].
  - simpl. tauto.
  - change ((x :: l1) ++ a :: l2) with (x :: (l1 ++ a :: l2)).
    cbn [chain]. rewrite IH. destruct l1; simpl; tauto.
Qed.

Lemma tiling_bound_lt lo hi bl : tiling lo hi bl -> bound_lt lo hi.
Proof.
  induction 1 as [|a lo k hi bl Hlo Ht IH]; [done|].
  destruct hi as [h|]; simpl in *; [|done].
  eapply lo_lt_trans; [exact Hlo|lia].
Qed.

Lemma tiling_app lo k hi b1 b2 :
  tiling lo (Some k) b1 -> tiling (Some k) hi b2 -> tiling lo hi (b1 ++ b2).
Proof.
  intros H1 H2. remember (Some k) as m eqn:Hm. revert Hm.
  induction H1 as [a lo m Hlt|a lo k' m bl Hlo Ht IH]; intros ->.
  - simpl. by constructor.
  - simpl. constructor; auto.
Qed.

Lemma bps_tiling P lo hi ks cs bl :
  (forall lo hi c l, P lo hi c l -> bound_lt lo hi -> tiling lo hi l) ->
  bps P lo hi ks cs bl -> bound_lt lo hi -> tiling lo hi bl.
Proof.
  intros HP. induction 1 as [|lo hi k ks c cs bl1 bl2 Hc Hlo Hhi Hrest IH]; intros Hlt.
  - eapply HP; eauto.
  - eapply tiling_app; [eapply HP; eauto|].
    apply IH. destruct hi; simpl in *; done.
Qed.

Lemma shape_tiling cap n : forall lo hi p bl,
  shape cap n lo hi p bl -> bound_lt lo hi -> tiling lo hi bl.
Proof.
  induction n as [|n IH]; intros lo hi p bl Hs Hlt.
  - destruct p; [|done]. simpl in Hs. subst. by constructor.
  - destruct p as [|ks cs c]; [done|]. destruct Hs as (_ & _ & Hb).
    eapply bps_tiling; eauto.
Qed.

Lemma bps_leaves P lo hi ks cs bl :
  (forall lo hi c l, P lo hi c l -> leaves_of c = l.*1) ->
  bps P lo hi ks cs bl -> flat_map leaves_of cs = bl.*1.
Proof.
  intros HP. induction 1 as [|lo hi k ks c cs bl1 bl2 Hc Hlo Hhi Hrest IH]; simpl.
  - rewrite app_nil_r. eapply HP; eauto.
  - rewrite fmap_app, IH. f_equal. eapply HP; eauto.
Qed.

Lemma shape_leaves cap n : forall lo hi p bl,
  shape cap n lo hi p bl -> leaves_of p = bl.*1.
Proof.
  induction n as [|n IH]; intros lo hi p bl Hs.
  - destruct p; [|done]. simpl in Hs. by subst.
  - destruct p as [|ks cs c]; [done|]. destruct Hs as (_ & _ & Hb).
    simpl. eapply bps_leaves; eauto.
Qed.

(** The keys of a tiling are strictly increasing and within its range. *)
Lemma tiling_sorted cap s lo hi bl :
  tiling lo hi bl -> leaves_ok cap s bl ->
  StronglySorted Z.lt (contents s bl.*1) /\
  Forall (in_range lo hi) (contents s bl.*1).
Proof.
  induction 1 as [a lo hi Hlt|a lo k hi bl Hlo Ht IH]; intros Hok.
  - apply Forall_cons in Hok as [(lf & Ha & _ & _ & Hs & Hr) _]. simpl in *.
    unfold keys_at. rewrite Ha, app_nil_r. done.
  - apply Forall_cons in Hok as [(lf & Ha & _ & _ & Hs & Hr) Hok]. simpl in *.
    destruct (IH Hok) as [IHs IHr].
    unfold keys_at. rewrite Ha.
    pose proof (tiling_bound_lt _ _ _ Ht) as Hkh.
    rewrite Forall_forall in Hr, IHr. split.
    + apply StronglySorted_app. split_and!; auto.
      intros x1 x2 Hx1 Hx2. destruct (Hr _ Hx1) as [_ H1], (IHr _ Hx2) as [H2 _].
      simpl in *. lia.
    + apply Forall_app. rewrite !Forall_forall. split.
      * intros x Hx. destruct (Hr _ Hx) as [H1 H2]. split; [done|].
        destruct hi; simpl in *; [lia|done].
      * intros x Hx. destruct (IHr _ Hx) as [H1 H2]. split; [|done].
        eapply lo_lt_le, lo_lt_trans; [exact Hlo|done].
Qed.

Lemma tiling_lo_mono lo hi b1 a lo_a hi_a b2 :
  tiling lo hi (b1 ++ (a, (lo_a, hi_a)) :: b2) ->
  forall x, lo_le lo_a x -> lo_le lo x.
Proof.
  revert lo. induction b1 as [|b b1 IH]; intros lo Ht x Hx.
  - simpl in Ht. by inversion Ht; subst.
  - simpl in Ht. inversion Ht as [|a0 lo0 k hi0 bl0 Hlo Ht' E]; subst.
    { by destruct b1. }
    specialize (IH _ Ht' x Hx). simpl in IH.
    eapply lo_lt_le, lo_lt_trans; [exact Hlo|done].
Qed.

(** Only the leaf that serves [key] can hold it. *)
Lemma tiling_member cap s lo hi b1 a lo_a hi_a b2 key :
  tiling lo hi (b1 ++ (a, (lo_a, hi_a)) :: b2) ->
  leaves_ok cap s (b1 ++ (a, (lo_a, hi_a)) :: b2) ->
  in_range lo_a hi_a key ->
  key ∈ contents s b1.*1 ++ contents s b2.*1 -> False.
Proof.
  revert lo. induction b1 as [|b b1 IH]; intros lo Ht Hok [Hkl Hkh] Hin.
  - simpl in *. inversion Ht as [|a0 lo0 k hi0 bl0 Hlo Ht' E]; subst.
    { by apply elem_of_nil in Hin. }
    apply Forall_cons in Hok as [_ Hok].
    destruct (tiling_sorted cap s _ _ _ Ht' Hok) as [_ Hr].
    rewrite Forall_forall in Hr. destruct (Hr _ Hin) as [H1 _]. simpl in *. lia.
  - simpl in Ht. inversion Ht as [|a0 lo0 k hi0 bl0 Hlo Ht' E]; subst.
    { by destruct b1. }
    apply Forall_cons in Hok as [(lf & Ha & _ & _ & _ & Hr) Hok]. simpl in *.
    rewrite <- app_assoc in Hin. apply elem_of_app in Hin as [Hin|Hin].
    + unfold keys_at in Hin. rewrite Ha in Hin.
      rewrite Forall_forall in Hr. destruct (Hr _ Hin) as [_ H2].
      pose proof (tiling_lo_mono _ _ _ _ _ _ _ Ht' key Hkl) as H3.
      simpl in *. lia.
    + by apply (IH _ Ht' Hok).
Qed.

(** ** One insert below a slot *)

Lemma node_insert_inv (cap : Z) (n : nat) (lo hi : bound) (p : pointer)
    (bl : list binfo) (s : store) (key : Z) (nxt : option addr) :
  1 <= cap ->
  shape cap n lo hi p bl -> bound_lt lo hi -> leaves_ok cap s bl ->
  NoDup bl.*1 -> chain s bl.*1 nxt -> in_range lo hi key ->
  exists p' promo s' bl',
    BPTreeNode.insert p key s = Ok ((p', promo), s') /\
    grown cap n lo hi p' promo bl' /\
    leaves_ok cap s' bl' /\ NoDup bl'.*1 /\ chain s' bl'.*1 nxt /\
    (forall x, x ∈ contents s' bl'.*1 <-> x = key \/ x ∈ contents s bl.*1) /\
    (key ∈ contents s bl.*1 -> p' = p /\ promo = None /\ s' = s).
Proof.
  intros Hcap Hshape Hlt Hok Hnd Hch Hkey.
  pose proof (shape_tiling _ _ _ _ _ _ Hshape Hlt) as Ht.
  destruct (descend cap Hcap _ _ _ _ _ key Hshape Hkey)
    as (b1 & a & lo_a & hi_a & b2 & -> & Hra & _ & Hins0 & Hins1).
  pose proof (tiling_member _ _ _ _ _ _ _ _ _ _ Ht Hok Hra) as Hmem.
  pose proof (leaves_ok_valid _ _ _ Hok) as Hvalid.
  assert (Hok' := Hok).
  apply Forall_app in Hok' as [Hok1 Hok2].
  apply Forall_cons in Hok2 as [(lf & Ha & Hlf) Hok2]. simpl in Ha, Hlf.
  rewrite fmap_app, fmap_cons in Hnd, Hch, Hvalid. simpl in Hnd, Hch, Hvalid.
  apply NoDup_app in Hnd as (Hnd1 & Hdisj & Hnd2).
  apply NoDup_cons in Hnd2 as [Hna2 Hnd2].
  assert (Hna1 : a ∉ b1.*1).
  { intros Hin. apply (Hdisj _ Hin). left. }
  assert (Hv1 : forall x, x ∈ b1.*1 -> (x < length s)%nat).
  { intros x Hx. apply Hvalid. apply elem_of_app. by left. }
  assert (Hv2 : forall x, x ∈ b2.*1 -> (x < length s)%nat).
  { intros x Hx. apply Hvalid. apply elem_of_app. right. by right. }
  assert (Hva : (a < length s)%nat) by (eapply lookup_lt_Some; eauto).
  apply chain_app in Hch as [Hch1 [(lf0 & Ha0 & Hnx) Hch2]].
  rewrite Ha in Ha0. injection Ha0 as <-.
  assert (Hcont : forall s0, contents s0 (b1.*1 ++ a :: b2.*1)
                    = contents s0 b1.*1 ++ keys_at s0 a ++ contents s0 b2.*1).
  { intros s0. by rewrite contents_app. }
  assert (Hold : forall x, x ∈ contents s (b1.*1 ++ a :: b2.*1) <->
                   x ∈ leaf_keys lf \/ x ∈ contents s b1.*1 ++ contents s b2.*1).
  { intros x. rewrite Hcont. unfold keys_at. rewrite Ha. set_solver. }
  destruct (leaf_insert_spec cap s a lf lo_a hi_a key Hcap Ha Hlf Hra)
    as [(lf' & Heq & Hlf' & Hnx' & Hel & Hdup)
       |(lf' & new & pk & Heq & Hlf' & Hnew & Hlo & Hhi & Hnx' & Hnn & Hel & Hnin)].
  - set (s' := <[a := lf']> s) in *.
    assert (Hag1 : agree_on b1.*1 s s').
    { unfold s'. rewrite <- (app_nil_r (<[a:=lf']> s)). by apply agree_on_update. }
    assert (Hag2 : agree_on b2.*1 s s').
    { unfold s'. rewrite <- (app_nil_r (<[a:=lf']> s)). by apply agree_on_update. }
    assert (Ha' : s' !! a = Some lf') by (by apply list_lookup_insert_eq).
    exists p, None, s', (b1 ++ (a, (lo_a, hi_a)) :: b2).
    rewrite fmap_app, fmap_cons. simpl.
    split_and!.
    + by apply Hins0.
    + done.
    + apply Forall_app. split; [by eapply leaves_ok_agree|].
      apply Forall_cons. split; [by exists lf'|by eapply leaves_ok_agree].
    + apply NoDup_app. split_and!; auto. by apply NoDup_cons.
    + apply chain_app. split; [by eapply chain_agree|].
      split; [|by eapply chain_agree].
      exists lf'. split; [done|]. by rewrite Hnx'.
    + intros x. rewrite Hold, Hcont.
      rewrite (contents_agree _ _ _ Hag1), (contents_agree _ _ _ Hag2).
      unfold keys_at. rewrite Ha'. specialize (Hel x).
      clear -Hel. set_solver.
    + intros Hin. apply Hold in Hin as [Hin|Hin]; [|done].
      split_and!; auto. unfold s'. rewrite (Hdup Hin). by apply list_insert_id.
  - set (s' := <[a := lf']> s ++ [new]) in *.
    assert (Hag1 : agree_on b1.*1 s s') by (by apply agree_on_update).
    assert (Hag2 : agree_on b2.*1 s s') by (by apply agree_on_update).
    assert (Ha' : s' !! a = Some lf').
    { unfold s'. rewrite lookup_app_l by (by rewrite length_insert).
      by apply list_lookup_insert_eq. }
    assert (Hn' : s' !! length s = Some new).
    { unfold s'. rewrite lookup_app_r by (by rewrite length_insert).
      by rewrite length_insert, Nat.sub_diag. }
    destruct (Hins1 s s' pk (length s) Heq Hlo Hhi) as (p' & promo & Hp' & Hg).
    exists p', promo, s', (b1 ++ (a, (lo_a, Some pk)) :: (length s, (Some pk, hi_a)) :: b2).
    rewrite !fmap_app, !fmap_cons. simpl.
    split_and!.
    + done.
    + done.
    + apply Forall_app. split; [by eapply leaves_ok_agree|].
      apply Forall_cons. split; [by exists lf'|].
      apply Forall_cons. split; [by exists new|by eapply leaves_ok_agree].
    + apply NoDup_app. split_and!; auto.
      * intros x Hx [->|[->|Hx2]%elem_of_cons]%elem_of_cons.
        -- done.
        -- specialize (Hv1 _ Hx). lia.
        -- apply (Hdisj _ Hx). by right.
      * apply NoDup_cons. split.
        -- intros [->|Hx2]%elem_of_cons; [lia|done].
        -- apply NoDup_cons. split; [|done].
           intros Hx. specialize (Hv2 _ Hx). lia.
    + apply chain_app. split; [by eapply chain_agree|].
      split; [by exists lf'|].
      split; [|by eapply chain_agree].
      exists new. split; [done|]. by rewrite Hnn.
    + intros x. rewrite Hold.
      change (b1.*1 ++ a :: length s :: b2.*1) with (b1.*1 ++ [a] ++ length s :: b2.*1).
      rewrite !contents_app. simpl.
      rewrite (contents_agree _ _ _ Hag1), (contents_agree _ _ _ Hag2).
      unfold keys_at. rewrite Ha', Hn'. specialize (Hel x).
      clear -Hel. set_solver.
    + intros Hin. apply Hold in Hin as [Hin|Hin]; [|done].
      exfalso. apply Hnin. done.
Qed.

(** ** The read methods below a slot *)

Lemma node_find_spec (cap : Z) (n : nat) (lo hi : bound) (p : pointer)
    (bl : list binfo) (s : store) (key : Z) :
  1 <= cap ->
  shape cap n lo hi p bl -> bound_lt lo hi -> leaves_ok cap s bl ->
  in_range lo hi key ->
  BPTreeNode.find p key s = Ok (bool_decide (key ∈ contents s bl.*1), s).
Proof.
  intros Hcap Hshape Hlt Hok Hkey.
  pose proof (shape_tiling _ _ _ _ _ _ Hshape Hlt) as Ht.
  destruct (descend cap Hcap _ _ _ _ _ key Hshape Hkey)
    as (b1 & a & lo_a & hi_a & b2 & -> & Hra & Hfind & _ & _).
  pose proof (tiling_member _ _ _ _ _ _ _ _ _ _ Ht Hok Hra) as Hmem.
  apply Forall_app in Hok as [_ Hok2].
  apply Forall_cons in Hok2 as [(lf & Ha & Hlf) _]. simpl in Ha.
  rewrite Hfind. unfold BPTreeLeaf.find, bind, get_leaf, ret. rewrite Ha.
  rewrite list_contains_elem_of. do 2 f_equal. apply bool_decide_ext.
  rewrite fmap_app, fmap_cons, contents_app. simpl.
  unfold keys_at at 1. rewrite Ha. set_solver.
Qed.

Lemma keys_loop_chain (s : store) (nxt_keys : list addr) :
  forall (fuel : nat) (a : addr) (acc : list Z),
    chain s (a :: nxt_keys) None -> (length nxt_keys < fuel)%nat ->
    BPTreeLeaf.keys_loop fuel a acc s = Ok (acc ++ contents s nxt_keys, s).
Proof.
  induction nxt_keys as [|b l IH]; intros fuel a acc Hch Hfuel.
  - destruct fuel as [|fuel]; [simpl in Hfuel; lia|].
    destruct Hch as [(lf & Ha & Hn) _]. simpl.
    unfold bind, get_leaf, ret. rewrite Ha, Hn. by rewrite app_nil_r.
  - destruct fuel as [|fuel]; [simpl in Hfuel; lia|].
    destruct Hch as [(lf & Ha & Hn) Hch].
    assert (Hch' := Hch). destruct Hch' as [(lfb & Hb & _) _].
    cbn [BPTreeLeaf.keys_loop]. unfold bind at 1. unfold get_leaf at 1.
    rewrite Ha, Hn. unfold bind at 1. unfold get_leaf at 1. rewrite Hb.
    rewrite IH by (simpl in *; auto; lia).
    simpl. unfold keys_at. rewrite Hb. by rewrite app_assoc.
Qed.

Lemma NoDup_bounded_length (l : list nat) (n : nat) :
  NoDup l -> (forall x, x ∈ l -> (x < n)%nat) -> (length l <= n)%nat.
Proof.
  intros Hnd Hb.
  rewrite <- (length_seq n 0). apply submseteq_length.
  apply NoDup_submseteq; [done|].
  intros x Hx. apply elem_of_seq. specialize (Hb x Hx). lia.
Qed.

Lemma leaf_keys_chain (s : store) (a : addr) (l : list addr) :
  chain s (a :: l) None -> NoDup (a :: l) ->
  BPTreeLeaf.keys a s = Ok (contents s (a :: l), s).
Proof.
  intros Hch Hnd.
  assert (Hlen : (length (a :: l) <= length s)%nat).
  { apply NoDup_bounded_length; [done|]. intros x Hx.
    clear Hnd. revert Hch Hx. generalize (a :: l). intros l0.
    induction l0 as [|y l0 IH]; [by intros _ ?%elem_of_nil|].
    intros [(lf & Hy & _) Hch] [->|Hx]%elem_of_cons; [|by apply IH].
    eapply lookup_lt_Some; eauto. }
  assert (Hch' := Hch). destruct Hch' as [(lf & Ha & _) _].
  unfold BPTreeLeaf.keys. unfold bind at 1. unfold get_leaf. rewrite Ha.
  unfold bind, allocated.
  rewrite (keys_loop_chain s l) by (simpl in *; auto; lia).
  simpl. unfold keys_at. by rewrite Ha.
Qed.

(** [keys] goes down the first slots to the leftmost leaf. *)
Lemma shape_first (cap : Z) (n : nat) : forall lo hi p bl,
  shape cap n lo hi p bl ->
  exists a r bl', bl = (a, r) :: bl' /\
    forall s, BPTreeNode.keys p s = BPTreeLeaf.keys a s.
Proof.
  induction n as [|n IH]; intros lo hi p bl Hs.
  - destruct p as [a|]; [|done]. simpl in Hs. subst. by eexists a, _, [].
  - destruct p as [|ks cs c]; [done|]. destruct Hs as (_ & _ & Hb).
    destruct Hb as [lo hi c0 bl HP|lo hi k ks c0 cs bl1 bl2 HP Hlo Hhi Hrest].
    + destruct (IH _ _ _ _ HP) as (a & r & bl' & -> & Hk).
      by exists a, r, bl'.
    + destruct (IH _ _ _ _ HP) as (a & r & bl' & -> & Hk).
      by exists a, r, (bl' ++ bl2).
Qed.

Lemma node_keys_spec (cap : Z) (n : nat) (lo hi : bound) (p : pointer)
    (bl : list binfo) (s : store) :
  shape cap n lo hi p bl -> NoDup bl.*1 -> chain s bl.*1 None ->
  BPTreeNode.keys p s = Ok (contents s bl.*1, s).
Proof.
  intros Hshape Hnd Hch.
  destruct (shape_first _ _ _ _ _ _ Hshape) as (a & r & bl' & -> & ->).
  rewrite fmap_cons in *. by apply leaf_keys_chain.
Qed.

Lemma map_pointers_ok {A} (f : pointer -> M A) (g : pointer -> A)
    (cs : list pointer) (s : store) :
  Forall (fun c => f c s = Ok (g c, s)) cs ->
  map_pointers f cs s = Ok (map g cs, s).
Proof.
  induction 1 as [|c cs Hc Hcs IH]; [done|].
  cbn [map_pointers map]. unfold bind at 1. rewrite Hc.
  unfold bind at 1. fold (map_pointers f). by rewrite IH.
Qed.

Lemma bps_children P lo hi ks cs bl :
  bps P lo hi ks cs bl ->
  Forall (fun c => exists lo' hi' l, P lo' hi' c l /\ l ⊆ bl) cs.
Proof.
  induction 1 as [lo hi c bl HP|lo hi k ks c cs bl1 bl2 HP Hlo Hhi Hrest IH].
  - constructor; [|done]. by exists lo, hi, bl.
  - constructor.
    + exists lo, (Some k), bl1. split; [done|]. set_solver.
    + eapply Forall_impl; [exact IH|]. simpl.
      intros c' (lo' & hi' & l & HP' & Hsub). exists lo', hi', l. split; [done|].
      set_solver.
Qed.

Lemma leaves_ok_subseteq (cap : Z) (s : store) (l bl : list binfo) :
  l ⊆ bl -> leaves_ok cap s bl -> leaves_ok cap s l.
Proof.
  unfold leaves_ok. rewrite !Forall_forall. intros Hsub Hok b Hb. apply Hok. auto.
Qed.

Lemma sum_len_flat_map {A} (f : pointer -> list A) (cs : list pointer) :
  sum (map (fun c => len (f c)) cs) = len (flat_map f cs).
Proof.
  induction cs as [|c cs IH]; simpl; [done|].
  unfold len in *. rewrite IH, length_app. lia.
Qed.

Lemma sum_len_contents (s : store) (cs : list pointer) :
  sum (map (fun c => len (contents s (leaves_of c))) cs)
  = len (contents s (flat_map leaves_of cs)).
Proof.
  induction cs as [|c cs IH]; simpl; [done|].
  unfold len in *. rewrite IH, contents_app, length_app. lia.
Qed.

Lemma node_counts_spec (cap : Z) (s : store) (n : nat) : forall lo hi p bl,
  shape cap n lo hi p bl -> leaves_ok cap s bl ->
  BPTreeNode.height p s = Ok (Z.of_nat n, s) /\
  BPTreeNode.num_nodes p s = Ok (count_nodes p, s) /\
  BPTreeNode.num_leaves p s = Ok (len (leaves_of p), s) /\
  BPTreeNode.num_keys p s = Ok (len (contents s (leaves_of p)), s).
Proof.
  induction n as [|n IH]; intros lo hi p bl Hs Hok.
  - destruct p as [a|]; [|done]. simpl in Hs. subst.
    apply Forall_cons in Hok as [(lf & Ha & _) _]. simpl in Ha.
    simpl. unfold BPTreeLeaf.height, BPTreeLeaf.num_nodes, BPTreeLeaf.num_leaves,
      BPTreeLeaf.num_keys, bind, get_leaf, ret, keys_at.
    rewrite Ha, app_nil_r. done.
  - destruct p as [|ks cs c]; [done|]. destruct Hs as (_ & _ & Hb).
    assert (Hall : Forall (fun c =>
      BPTreeNode.height c s = Ok (Z.of_nat n, s) /\
      BPTreeNode.num_nodes c s = Ok (count_nodes c, s) /\
      BPTreeNode.num_leaves c s = Ok (len (leaves_of c), s) /\
      BPTreeNode.num_keys c s = Ok (len (contents s (leaves_of c)), s)) cs).
    { eapply Forall_impl; [exact (bps_children _ _ _ _ _ _ Hb)|]. simpl.
      intros c0 (lo' & hi' & l & Hc0 & Hsub).
      eapply IH; [exact Hc0|]. by eapply leaves_ok_subseteq. }
    split_and!.
    + destruct Hb as [lo hi c0 bl HP|lo hi k ks c0 cs bl1 bl2 HP Hlo Hhi Hrest];
        apply Forall_cons in Hall as [(Hh & _) _];
        simpl; unfold bind; rewrite Hh; unfold ret; do 2 f_equal; lia.
    + cbn [BPTreeNode.num_nodes count_nodes]. unfold bind.
      rewrite (map_pointers_ok _ count_nodes); [done|].
      eapply Forall_impl; [exact Hall|]. simpl. tauto.
    + cbn [BPTreeNode.num_leaves leaves_of]. unfold bind.
      rewrite (map_pointers_ok _ (fun c => len (leaves_of c))).
      * unfold ret. by rewrite sum_len_flat_map.
      * eapply Forall_impl; [exact Hall|]. simpl. tauto.
    + cbn [BPTreeNode.num_keys leaves_of]. unfold bind.
      rewrite (map_pointers_ok _ (fun c => len (contents s (leaves_of c)))).
      * unfold ret. by rewrite sum_len_contents.
      * eapply Forall_impl; [exact Hall|]. simpl. tauto.
Qed.

(** ** The read methods never write

    Whatever the store holds, a read method that returns hands back the
    store it was given. *)

Lemma pointer_nested_ind (P : pointer -> Prop) :
  (forall a, P (Leaf a)) ->
  (forall ks cs c, Forall P cs -> P (Node ks cs c)) ->
  forall p, P p.
Proof.
  intros HL HN. fix IH 1. intros [a|ks cs c]; [apply HL|].
  apply HN. induction cs as [|c0 cs IHcs]; constructor; auto.
Qed.

Lemma pure_bind {A B} (m : M A) (k : A -> M B) :
  pure_at m -> (forall a, pure_at (k a)) -> pure_at (bind m k).
Proof.
  intros Hm Hk s r s'. unfold bind.
  destruct (m s) as [[a s1]|] eqn:E; [|done].
  intros Hks. apply Hm in E as ->. by apply Hk in Hks.
Qed.

Lemma pure_ret {A} (a : A) : pure_at (ret a).
Proof. intros s r s' H. by injection H. Qed.

Lemma pure_get_leaf (a : addr) : pure_at (get_leaf a).
Proof.
  intros s r s'. unfold get_leaf. destruct (s !! a); [|done]. intros H. by injection H.
Qed.

Lemma pure_allocated : pure_at allocated.
Proof. intros s r s' H. by injection H. Qed.

Lemma pure_on_nth {A} (f : pointer -> M A) (cs : list pointer) (i : nat) :
  Forall (fun c => pure_at (f c)) cs -> pure_at (on_nth f cs i).
Proof.
  intros Hall. revert i. induction Hall as [|c cs Hc Hcs IH]; intros i; simpl.
  - by intros s r s'.
  - destruct i; auto.
Qed.

Lemma pure_map_pointers {A} (f : pointer -> M A) (cs : list pointer) :
  Forall (fun c => pure_at (f c)) cs -> pure_at (map_pointers f cs).
Proof.
  induction 1 as [|c cs Hc Hcs IH]; simpl.
  - apply pure_ret.
  - apply pure_bind; [done|]. intros x.
    apply pure_bind; [done|]. intros xs. apply pure_ret.
Qed.

Lemma pure_keys_loop (fuel : nat) : forall a acc,
  pure_at (BPTreeLeaf.keys_loop fuel a acc).
Proof.
  induction fuel as [|fuel IH]; intros a acc; simpl.
  - by intros s r s'.
  - apply pure_bind; [apply pure_get_leaf|]. intros cur.
    destruct (leaf_next cur); [|apply pure_ret].
    apply pure_bind; [apply pure_get_leaf|]. intros nxt. apply IH.
Qed.

Lemma node_reads_pure (p : pointer) :
  pure_at (BPTreeNode.keys p) /\
  (forall key, pure_at (BPTreeNode.find p key)) /\
  pure_at (BPTreeNode.height p) /\
  pure_at (BPTreeNode.num_nodes p) /\
  pure_at (BPTreeNode.num_leaves p) /\
  pure_at (BPTreeNode.num_keys p).
Proof.
  induction p as [a|ks cs c IH] using pointer_nested_ind.
  - simpl. split_and!; try intros key;
      repeat (apply pure_bind; [first [apply pure_get_leaf|apply pure_allocated]|intros ?]);
      first [apply pure_ret|apply pure_keys_loop].
  - simpl. split_and!.
    + apply pure_on_nth. eapply Forall_impl; [exact IH|]. simpl. tauto.
    + intros key. apply pure_on_nth. eapply Forall_impl; [exact IH|]. simpl.
      intros c0 (_ & Hf & _). apply Hf.
    + apply pure_bind; [|intros ?; apply pure_ret].
      apply pure_on_nth. eapply Forall_impl; [exact IH|]. simpl. tauto.
    + apply pure_bind; [|intros ?; apply pure_ret].
      apply pure_map_pointers. eapply Forall_impl; [exact IH|]. simpl. tauto.
    + apply pure_bind; [|intros ?; apply pure_ret].
      apply pure_map_pointers. eapply Forall_impl; [exact IH|]. simpl. tauto.
    + apply pure_bind; [|intros ?; apply pure_ret].
      apply pure_map_pointers. eapply Forall_impl; [exact IH|]. simpl. tauto.
Qed.

Lemma on_leaves_pure {A} (m : pointer -> M A) (t t' : BPTree) (r : A) :
  pure_at (m (_tree t)) -> on_leaves m t = Ok (r, t') -> t' = t.
Proof.
  intros Hm. unfold on_leaves.
  destruct (m (_tree t) (_leaves t)) as [[a s']|] eqn:E; [|done].
  apply Hm in E as ->. intros H. injection H as _ <-. by destruct t.
Qed.

(** In any state whatever, a read method of the tree that returns leaves
    the tree as it was. *)
Lemma reads_never_write (t t' : BPTree) :
  (forall key b, BPTree.find key t = Ok (b, t') -> t' = t) /\
  (forall l, BPTree.keys t = Ok (l, t') -> t' = t) /\
  (forall h, BPTree.height t = Ok (h, t') -> t' = t) /\
  (forall n, BPTree.num_nodes t = Ok (n, t') -> t' = t) /\
  (forall n, BPTree.num_leaves t = Ok (n, t') -> t' = t) /\
  (forall n, BPTree.num_keys t = Ok (n, t') -> t' = t) /\
  (forall st, BPTree.stats t = Ok (st, t') -> t' = t).
Proof.
  destruct (node_reads_pure (_tree t)) as (Hk & Hf & Hh & Hnn & Hnl & Hnk).
  assert (Hheight : forall h t0, BPTree.height t = Ok (h, t0) -> t0 = t).
  { intros h t0. unfold BPTree.height.
    destruct (on_leaves BPTreeNode.height t) as [[h0 t1]|] eqn:E; [|done].
    apply on_leaves_pure in E; [|done]. subst. intros H. by injection H. }
  split_and!; [| | | | | |intros st; unfold BPTree.stats;
    destruct (BPTree.height t) as [[h t1]|] eqn:E1; [|done];
    assert (t1 = t) as -> by (by apply (Hheight h t1));
    destruct (BPTree.num_nodes t) as [[nn t2]|] eqn:E2; [|done];
    apply on_leaves_pure in E2 as ->; [|done];
    destruct (BPTree.num_leaves t) as [[nl t3]|] eqn:E3; [|done];
    apply on_leaves_pure in E3 as ->; [|done];
    destruct (BPTree.num_keys t) as [[nk t4]|] eqn:E4; [|done];
    apply on_leaves_pure in E4 as ->; [|done];
    intros H; by injection H].
  - intros key b. apply on_leaves_pure, Hf.
  - intros l. by apply on_leaves_pure.
  - intros h. apply Hheight.
  - intros n. by apply on_leaves_pure.
  - intros n. by apply on_leaves_pure.
  - intros n. by apply on_leaves_pure.
Qed.

(** ** The tree *)

Lemma tree_insert_eq (key : Z) (t : BPTree) root promo s' :
  BPTreeNode.insert (_tree t) key (_leaves t) = Ok ((root, promo), s') ->
  BPTree.insert key t = Ok (tt, mkTree (new_root (_capacity t) root promo) (_capacity t) s').
Proof.
  intros H. unfold BPTree.insert. rewrite H. by destruct promo as [[pk q]|].
Qed.

Lemma init_inv (cap : Z) :
  1 <= cap ->
  exists t, BPTree.init cap = Ok t /\ tree_inv cap 0 t /\ tree_keys t = [].
Proof.
  intros Hcap. eexists. split; [reflexivity|]. split; [|done].
  split; [done|]. exists [(0%nat, (None, None))]. simpl. split_and!; auto.
  - constructor; [|done]. eexists. split; [reflexivity|].
    split_and!; simpl; auto; [unfold len; simpl; lia|constructor].
  - apply NoDup_singleton.
  - eexists. split; reflexivity.
Qed.

Lemma tree_insert_inv (cap : Z) (n : nat) (t : BPTree) (key : Z) :
  1 <= cap -> tree_inv cap n t ->
  exists root promo s',
    BPTreeNode.insert (_tree t) key (_leaves t) = Ok ((root, promo), s') /\
    let t' := mkTree (new_root cap root promo) cap s' in
    BPTree.insert key t = Ok (tt, t') /\
    tree_inv cap (new_height n promo) t' /\
    (forall x, x ∈ tree_keys t' <-> x = key \/ x ∈ tree_keys t) /\
    (key ∈ tree_keys t -> t' = t).
Proof.
  intros Hcap (Hc & bl & Hshape & Hok & Hnd & Hch).
  assert (Hkey : in_range None None key) by (by split).
  destruct (node_insert_inv cap n None None (_tree t) bl (_leaves t) key None
              Hcap Hshape I Hok Hnd Hch Hkey)
    as (root & promo & s' & bl' & Hins & Hg & Hok' & Hnd' & Hch' & Hel & Hdup).
  exists root, promo, s'. split; [done|]. cbv zeta.
  pose proof (tree_insert_eq key t root promo s' Hins) as Heq. rewrite Hc in Heq.
  assert (Hinv : tree_inv cap (new_height n promo) (mkTree (new_root cap root promo) cap s')).
  { split; [done|]. exists bl'. simpl. split_and!; auto.
    destruct promo as [[pk q]|]; simpl in *; [|done].
    destruct Hg as (ba & bb & -> & Ha & Hb & Hlo & Hhi).
    split_and!; auto; try (unfold len; simpl; lia).
    constructor; auto. by constructor. }
  split_and!; auto.
  - intros x. unfold tree_keys. simpl.
    destruct Hinv as (_ & bl0 & Hs0 & _). simpl in Hs0.
    rewrite (shape_leaves _ _ _ _ _ _ Hshape), (shape_leaves _ _ _ _ _ _ Hs0).
    assert (bl0.*1 = bl'.*1) as ->; [|apply Hel].
    rewrite <- (shape_leaves _ _ _ _ _ _ Hs0).
    destruct promo as [[pk q]|]; simpl in *.
    + destruct Hg as (ba & bb & -> & Ha & Hb & _).
      rewrite app_nil_r, fmap_app.
      by rewrite (shape_leaves _ _ _ _ _ _ Ha), (shape_leaves _ _ _ _ _ _ Hb).
    + by apply shape_leaves in Hg.
  - intros Hin. unfold tree_keys in Hin.
    rewrite (shape_leaves _ _ _ _ _ _ Hshape) in Hin.
    destruct (Hdup Hin) as (-> & -> & ->). simpl. rewrite <- Hc. by destruct t.
Qed.

Lemma reachable_inv (cap : Z) (t : BPTree) :
  1 <= cap -> reachable cap t -> exists n, tree_inv cap n t.
Proof.
  intros Hcap. induction 1 as [t Hinit|t key t' Hr [n IH] Hins].
  - destruct (init_inv cap Hcap) as (t0 & Ht0 & Hinv & _).
    rewrite Hinit in Ht0. injection Ht0 as <-. by exists 0%nat.
  - destruct (tree_insert_inv cap n t key Hcap IH) as (root & promo & s' & _ & Heq & Hinv & _).
    cbv zeta in Heq. rewrite Hins in Heq. injection Heq as ->. eauto.
Qed.

(** The read methods of a tree at rest. *)
Lemma tree_reads (cap : Z) (n : nat) (t : BPTree) :
  1 <= cap -> tree_inv cap n t ->
  (forall key, BPTree.find key t = Ok (bool_decide (key ∈ tree_keys t), t)) /\
  BPTree.keys t = Ok (tree_keys t, t) /\
  BPTree.height t = Ok (Z.of_nat n + 1, t) /\
  BPTree.num_nodes t = Ok (count_nodes (_tree t), t) /\
  BPTree.num_leaves t = Ok (len (leaves_of (_tree t)), t) /\
  BPTree.num_keys t = Ok (len (tree_keys t), t) /\
  BPTree.stats t =
    Ok ((Z.of_nat n + 1, count_nodes (_tree t), len (leaves_of (_tree t)),
         len (tree_keys t)), t).
Proof.
  intros Hcap (Hc & bl & Hshape & Hok & Hnd & Hch).
  destruct (node_counts_spec cap (_leaves t) n _ _ _ _ Hshape Hok)
    as (Hh & Hnn & Hnl & Hnk).
  assert (Heta : mkTree (_tree t) (_capacity t) (_leaves t) = t) by (by destruct t).
  assert (Hheight : BPTree.height t = Ok (Z.of_nat n + 1, t)).
  { unfold BPTree.height, on_leaves. by rewrite Hh, Heta. }
  assert (Hnodes : BPTree.num_nodes t = Ok (count_nodes (_tree t), t)).
  { unfold BPTree.num_nodes, on_leaves. by rewrite Hnn, Heta. }
  assert (Hleaves : BPTree.num_leaves t = Ok (len (leaves_of (_tree t)), t)).
  { unfold BPTree.num_leaves, on_leaves. by rewrite Hnl, Heta. }
  assert (Hkeys : BPTree.num_keys t = Ok (len (tree_keys t), t)).
  { unfold BPTree.num_keys, on_leaves. by rewrite Hnk, Heta. }
  split_and!; auto.
  - intros key. unfold BPTree.find, on_leaves, tree_keys.
    assert (Hkey : in_range None None key) by (by split).
    rewrite (node_find_spec cap n None None _ bl _ key Hcap Hshape I Hok Hkey).
    by rewrite Heta, (shape_leaves _ _ _ _ _ _ Hshape).
  - unfold BPTree.keys, on_leaves, tree_keys.
    rewrite (node_keys_spec cap n None None _ bl _ Hshape Hnd Hch).
    by rewrite Heta, (shape_leaves _ _ _ _ _ _ Hshape).
  - unfold BPTree.stats. by rewrite Hheight, Hnodes, Hleaves, Hkeys.
Qed.

Lemma tree_keys_sorted (cap : Z) (n : nat) (t : BPTree) :
  tree_inv cap n t -> StronglySorted Z.lt (tree_keys t).
Proof.
  intros (Hc & bl & Hshape & Hok & Hnd & Hch). unfold tree_keys.
  rewrite (shape_leaves _ _ _ _ _ _ Hshape).
  eapply tiling_sorted; [|exact Hok]. by eapply shape_tiling.
Qed.

(** ** Balance and capacity *)

Lemma shape_depths (cap : Z) (n : nat) : forall lo hi p bl,
  shape cap n lo hi p bl -> Forall (eq n) (leaf_depths p).
Proof.
  induction n as [|n IH]; intros lo hi p bl Hs.
  - destruct p; [|done]. by repeat constructor.
  - destruct p as [|ks cs c]; [done|]. destruct Hs as (_ & _ & Hb).
    simpl. apply Forall_fmap.
    apply bps_children in Hb.
    induction Hb as [|c0 cs0 (lo' & hi' & l & Hc0 & _) _ IHcs]; simpl; [done|].
    apply Forall_app. split; [|done].
    eapply Forall_impl; [exact (IH _ _ _ _ Hc0)|]. by intros ? <-.
Qed.

Lemma shape_nodes_within (cap : Z) (n : nat) : forall lo hi p bl,
  shape cap n lo hi p bl -> nodes_within cap p = true.
Proof.
  induction n as [|n IH]; intros lo hi p bl Hs.
  - by destruct p.
  - destruct p as [|ks cs c]; [done|]. destruct Hs as (_ & Hlen & Hb).
    simpl. apply andb_true_iff. split; [by apply Z.leb_le|].
    apply forallb_forall. intros c0 Hc0.
    apply bps_children in Hb. rewrite Forall_forall in Hb.
    destruct (Hb c0) as (lo' & hi' & l & Hc & _); [by apply list_elem_of_In|].
    eauto.
Qed.

Lemma leaves_ok_within (cap : Z) (s : store) (bl : list binfo) :
  leaves_ok cap s bl -> leaves_within cap s bl.*1 = true.
Proof.
  intros Hok. apply forallb_forall. intros a Ha.
  apply list_elem_of_In, list_elem_of_fmap in Ha as (b & -> & Hb).
  unfold leaves_ok in Hok. rewrite Forall_forall in Hok.
  destruct (Hok b Hb) as (lf & -> & _ & Hlen & _). by apply Z.leb_le.
Qed.

(** ** Runs of inserts *)

Lemma insert_all_inv (cap : Z) (ks : list Z) :
  1 <= cap ->
  forall n t, tree_inv cap n t ->
    exists t' n',
      insert_all ks t = Ok t' /\ tree_inv cap n' t' /\
      (forall x, x ∈ tree_keys t' <-> x ∈ ks \/ x ∈ tree_keys t).
Proof.
  intros Hcap. induction ks as [|k ks IH]; intros n t Hinv.
  - exists t, n. split_and!; auto. set_solver.
  - destruct (tree_insert_inv cap n t k Hcap Hinv)
      as (root & promo & s' & _ & Heq & Hinv' & Hel & _). cbv zeta in *.
    destruct (IH _ _ Hinv') as (t' & n' & Hall & Hinv'' & Hel').
    exists t', n'. simpl. rewrite Heq. split_and!; auto.
    intros x. rewrite Hel', Hel. set_solver.
Qed.

Lemma build_inv (cap : Z) (ks : list Z) :
  1 <= cap ->
  exists t n,
    build cap ks = Ok t /\ tree_inv cap n t /\
    (forall x, x ∈ tree_keys t <-> x ∈ ks).
Proof.
  intros Hcap. destruct (init_inv cap Hcap) as (t0 & Hinit & Hinv & Hk0).
  destruct (insert_all_inv cap ks Hcap _ _ Hinv) as (t & n & Hall & Hinv' & Hel).
  exists t, n. unfold build. rewrite Hinit. split_and!; auto.
  intros x. rewrite Hel, Hk0. set_solver.
Qed.

(** ** The scenarios of the specification and the driver of the source *)

(** Scenario A: capacity 3, inserting 3, 8, 15, 32 splits the root leaf. *)
Example scenario_a_reads :
  run (BPTree.find 8) (build 3 [3; 8; 15; 32]) = Ok true /\
  run (BPTree.find 99) (build 3 [3; 8; 15; 32]) = Ok false /\
  run BPTree.keys (build 3 [3; 8; 15; 32]) = Ok [3; 8; 15; 32] /\
  run BPTree.height (build 3 [3; 8; 15; 32]) = Ok 2.
Proof. by split_and!. Qed.

(** Scenario B: capacity 3, inserting 5 three times. *)
Example scenario_b_stats :
  run BPTree.stats (build 3 [5; 5; 5]) = Ok (1, 0, 1, 1).
Proof. reflexivity. Qed.

(** Scenario C: capacity 1, inserting 1 to 7 in order. *)
Example scenario_c_stats :
  run BPTree.stats (build 1 [1; 2; 3; 4; 5; 6; 7]) = Ok (4, 7, 7, 7).
Proof. reflexivity. Qed.

(** The thirty inserts at the end of the source, two of them repeated. *)
Example driver_tree :
  run BPTree.keys (build 3 test_keys) =
    Ok [1; 2; 3; 4; 5; 6; 7; 8; 9; 11; 13; 15; 16; 17; 18; 19; 20; 21; 22;
        23; 24; 25; 26; 30; 31; 32; 34; 39] /\
  run BPTree.stats (build 3 test_keys) = Ok (4, 8, 13, 28).
Proof. by split. Qed.

(** Below capacity 1 the properties of this file are lost: with capacity 0
    a repeated insert splits the leaf again and the tree grows. *)
Example capacity_zero_repeated_insert :
  run BPTree.stats (build 0 [7]) = Ok (2, 1, 2, 1) /\
  run BPTree.stats (build 0 [7; 7]) = Ok (3, 3, 3, 1).
Proof. by split. Qed.

(** * The claims *)

(** C1 (round trip).  Inserting any finite sequence of distinct keys into a
    tree constructed with a capacity of at least 1 succeeds; afterwards
    [find(k)] is true exactly for the inserted keys, and [keys()] has as
    many elements as keys were inserted. *)
Theorem round_trip (cap : Z) (ks : list Z) :
  1 <= cap -> NoDup ks ->
  exists t,
    build cap ks = Ok t /\
    (forall k, BPTree.find k t = Ok (bool_decide (k ∈ ks), t)) /\
    exists l, BPTree.keys t = Ok (l, t) /\ length l = length ks.
Proof.
  intros Hcap Hnd. destruct (build_inv cap ks Hcap) as (t & n & Hb & Hinv & Hel).
  destruct (tree_reads cap n t Hcap Hinv) as (Hfind & Hkeys & _).
  exists t. split_and!; auto.
  - intros k. rewrite Hfind. do 2 f_equal. by apply bool_decide_ext.
  - exists (tree_keys t). split; [done|].
    apply Permutation_length, NoDup_Permutation; auto.
    eapply sorted_lt_NoDup, tree_keys_sorted; eauto.
Qed.

Lemma round_trip_witness :
  1 <= 3 /\ NoDup [15; 3; 32; 8] /\
  exists t,
    build 3 [15; 3; 32; 8] = Ok t /\
    (forall k, BPTree.find k t = Ok (bool_decide (k ∈ [15; 3; 32; 8]), t)) /\
    exists l, BPTree.keys t = Ok (l, t) /\ length l = length [15; 3; 32; 8].
Proof.
  assert (H1 : 1 <= 3) by lia.
  assert (H2 : NoDup [15; 3; 32; 8]) by compute_done.
  split; [exact H1|]. split; [exact H2|].
  exact (round_trip 3 [15; 3; 32; 8] H1 H2).
Defined.

(** C2 (sortedness).  In every state reached by inserts on a tree of
    capacity at least 1, [keys()] returns, leaving the tree as it is, a
    strictly increasing list, hence one without duplicates. *)
Theorem keys_strictly_increasing (cap : Z) (t : BPTree) :
  1 <= cap -> reachable cap t ->
  exists l, BPTree.keys t = Ok (l, t) /\ StronglySorted Z.lt l /\ NoDup l.
Proof.
  intros Hcap Hr. destruct (reachable_inv cap t Hcap Hr) as [n Hinv].
  destruct (tree_reads cap n t Hcap Hinv) as (_ & Hkeys & _).
  exists (tree_keys t). split; [done|].
  pose proof (tree_keys_sorted cap n t Hinv) as Hs.
  split; [done|by apply sorted_lt_NoDup].
Qed.

Lemma insert_all_reachable (cap : Z) (ks : list Z) :
  forall t t', reachable cap t -> insert_all ks t = Ok t' -> reachable cap t'.
Proof.
  induction ks as [|k ks IH]; intros t t' Hr Hall; simpl in Hall.
  - by injection Hall as <-.
  - destruct (BPTree.insert k t) as [[[] t1]|] eqn:Hins; [|done].
    eapply IH; [|exact Hall]. eapply reach_insert; eauto.
Qed.

Lemma build_reachable (cap : Z) (ks : list Z) (t : BPTree) :
  build cap ks = Ok t -> reachable cap t.
Proof.
  unfold build. destruct (BPTree.init cap) as [t0|] eqn:Hinit; [|done].
  apply insert_all_reachable. by constructor.
Qed.

Lemma scenario_a_built : build 3 [3; 8; 15; 32] = Ok scenario_a.
Proof. reflexivity. Qed.

Lemma scenario_a_reachable : reachable 3 scenario_a.
Proof. apply (build_reachable 3 [3; 8; 15; 32]). exact scenario_a_built. Qed.

Lemma keys_strictly_increasing_witness :
  1 <= 3 /\ reachable 3 scenario_a /\
  exists l, BPTree.keys scenario_a = Ok (l, scenario_a) /\
            StronglySorted Z.lt l /\ NoDup l.
Proof.
  assert (H1 : 1 <= 3) by lia.
  split; [exact H1|]. split; [exact scenario_a_reachable|].
  exact (keys_strictly_increasing 3 scenario_a H1 scenario_a_reachable).
Defined.

Lemma keys_after_insert_nonempty (keys : list Z) (key : Z) :
  (1 <= length (keys_after_insert keys key))%nat.
Proof.
  unfold keys_after_insert.
  pose proof (bisect_left_le keys key) as Hle.
  destruct (Nat.eqb_spec (bisect_left keys key) (length keys)) as [E|E].
  - rewrite length_list_insert_at. lia.
  - destruct (keys !! bisect_left keys key) as [k|]; [|lia].
    destruct (negb (k =? key)); [rewrite length_list_insert_at|]; lia.
Qed.

(** C3 (leaf split).  When the keys of a leaf, after [insert] has placed
    [key], are more than its capacity, the call allocates a new leaf that
    takes [keys[split_index:]] and the old [_next]; the leaf keeps
    [keys[:split_index]] and its [_next] becomes the new leaf; the promoted
    key is the first key of the new leaf and stays in it, and no key is
    lost. *)
Theorem leaf_split (s : store) (a : addr) (lf : BPTreeLeaf) (key : Z) :
  s !! a = Some lf ->
  let ks := keys_after_insert (leaf_keys lf) key in
  let cap := leaf_capacity lf in
  let si := split_index cap in
  cap < len ks ->
  exists pkey,
    BPTreeLeaf.insert a key s =
      Ok (Some (pkey, Leaf (length s)),
          <[a := mkLeaf (slice_to ks si) (Some (length s)) cap]> s
            ++ [mkLeaf (slice_from ks si) (leaf_next lf) cap]) /\
    getitem (slice_from ks si) 0 = Some pkey /\
    pkey ∈ slice_from ks si /\
    slice_to ks si ++ slice_from ks si = ks.
Proof.
  intros Ha ks cap si Hover.
  pose proof (leaf_insert_eq s a lf key Ha) as Heq. cbv zeta in Heq.
  fold ks cap si in Heq.
  destruct (Z.ltb_spec cap (len ks)) as [_|?]; [|lia].
  pose proof (keys_after_insert_nonempty (leaf_keys lf) key) as Hne. fold ks in Hne.
  assert (Hb : (slice_bound ks si < length ks)%nat).
  { unfold slice_bound. destruct (Z.ltb_spec si 0) as [Hneg|Hpos]; [lia|].
    unfold len in Hover.
    assert (si < Z.of_nat (length ks)); [|lia].
    unfold si, split_index. apply Z.div_lt_upper_bound; lia. }
  destruct (lookup_lt_is_Some_2 ks _ Hb) as [pkey Hpk].
  assert (Hget : getitem (slice_from ks si) 0 = Some pkey).
  { rewrite getitem_nonneg by lia. unfold slice_from.
    change (Z.to_nat 0) with 0%nat. by rewrite lookup_drop, Nat.add_0_r. }
  exists pkey. rewrite Hget in Heq. split_and!; auto.
  - eapply list_elem_of_lookup_2.
    rewrite getitem_nonneg in Hget by lia. exact Hget.
  - unfold slice_to, slice_from. apply take_drop.
Qed.

Lemma leaf_split_witness :
  let s := [mkLeaf [3; 8; 15] None 3] in
  s !! 0%nat = Some (mkLeaf [3; 8; 15] None 3) /\
  3 < len (keys_after_insert [3; 8; 15] 32) /\
  exists pkey,
    BPTreeLeaf.insert 0 32 s =
      Ok (Some (pkey, Leaf 1),
          [mkLeaf [3; 8] (Some 1%nat) 3; mkLeaf [15; 32] None 3]) /\
    getitem [15; 32] 0 = Some pkey /\
    pkey ∈ [15; 32] /\
    [3; 8] ++ [15; 32] = [3; 8; 15; 32].
Proof.
  intros s.
  assert (H1 : s !! 0%nat = Some (mkLeaf [3; 8; 15] None 3)) by reflexivity.
  assert (H2 : 3 < len (keys_after_insert [3; 8; 15] 32)) by (vm_compute; reflexivity).
  split; [exact H1|]. split; [exact H2|].
  exact (leaf_split s 0%nat (mkLeaf [3; 8; 15] None 3) 32 H1 H2).
Defined.

(** C4 (node split).  When [insert_here] has placed the separator and the
    child and the node then holds more keys than its capacity, the promoted
    key is [keys[split_index]]; the node keeps [keys[:split_index]] and
    [pointers[:split_index + 1]], the new node takes [keys[split_index + 1:]]
    and [pointers[split_index + 1:]] (slices of the lists before the
    removal), and the promoted key is in neither.  The keys of the node are
    distinct, as they are when strictly increasing, and the split index is
    not negative, as it is for every capacity from 1 on. *)
Theorem node_split (keys : list Z) (pointers : list pointer) (cap : Z)
    (position : nat) (key : Z) (child : pointer) (s : store) :
  let keys' := list_insert_at position key keys in
  let pointers' := list_insert_at (position + 1) child pointers in
  let si := split_index cap in
  0 <= si -> cap < len keys' -> NoDup keys' ->
  exists pkey,
    getitem keys' si = Some pkey /\
    BPTreeNode.insert_here keys pointers cap position key child s =
      Ok ((Node (slice_to keys' si) (slice_to pointers' (si + 1)) cap,
           Some (pkey, Node (slice_from keys' (si + 1))
                            (slice_from pointers' (si + 1)) cap)), s) /\
    (pkey ∉ slice_to keys' si) /\
    (pkey ∉ slice_from keys' (si + 1)).
Proof.
  intros keys' pointers' si Hsi Hover Hnd.
  destruct (insert_here_splits keys pointers cap position key child s Hsi Hover Hnd)
    as (pkey & Hpk & Heq).
  fold keys' pointers' si in Hpk, Heq.
  exists pkey. unfold slice_to, slice_from.
  rewrite getitem_nonneg, !slice_bound_nonneg by lia.
  replace (Z.to_nat (si + 1)) with (S (Z.to_nat si)) by lia.
  split_and!; auto.
  - intros Hin. rewrite <- (take_drop_middle keys' _ _ Hpk) in Hnd.
    apply NoDup_app in Hnd as (_ & Hdisj & _). apply (Hdisj _ Hin). left.
  - intros Hin. rewrite <- (take_drop_middle keys' _ _ Hpk) in Hnd.
    apply NoDup_app in Hnd as (_ & _ & Hnd). by apply NoDup_cons in Hnd as [? _].
Qed.

Lemma node_split_witness :
  let keys' := list_insert_at 2 11 [4; 8; 15] in
  0 <= split_index 3 /\ 3 < len keys' /\ NoDup keys' /\
  exists pkey,
    getitem [4; 8; 11; 15] (split_index 3) = Some pkey /\
    BPTreeNode.insert_here [4; 8; 15] [Leaf 0; Leaf 4; Leaf 2; Leaf 1] 3 2 11 (Leaf 8) [] =
      Ok ((Node [4; 8] [Leaf 0; Leaf 4; Leaf 2] 3,
           Some (pkey, Node [15] [Leaf 8; Leaf 1] 3)), []) /\
    (pkey ∉ [4; 8]) /\
    (pkey ∉ [15]).
Proof.
  intros keys'.
  assert (H1 : 0 <= split_index 3) by (vm_compute; discriminate).
  assert (H2 : 3 < len keys') by (vm_compute; reflexivity).
  assert (H3 : NoDup keys') by compute_done.
  split; [exact H1|]. split; [exact H2|]. split; [exact H3|].
  exact (node_split [4; 8; 15] [Leaf 0; Leaf 4; Leaf 2; Leaf 1] 3 2 11 (Leaf 8) []
                    H1 H2 H3).
Defined.

(** C5 (idempotence).  In a state reached by inserts on a tree of capacity
    at least 1, inserting a key that [find] reports present returns with the
    whole tree unchanged; so a second insert of a key leaves the state, and
    with it [keys()] and [stats()], as the first insert left it. *)
Theorem insert_present_noop (cap : Z) (t : BPTree) (key : Z) :
  1 <= cap -> reachable cap t ->
  (BPTree.find key t = Ok (true, t) -> BPTree.insert key t = Ok (tt, t)) /\
  (forall t1, BPTree.insert key t = Ok (tt, t1) ->
     BPTree.insert key t1 = Ok (tt, t1) /\
     forall t2, BPTree.insert key t1 = Ok (tt, t2) ->
       BPTree.keys t2 = BPTree.keys t1 /\ BPTree.stats t2 = BPTree.stats t1).
Proof.
  intros Hcap Hr.
  assert (Hnoop : forall t0, reachable cap t0 ->
            BPTree.find key t0 = Ok (true, t0) -> BPTree.insert key t0 = Ok (tt, t0)).
  { intros t0 Hr0 Hfind.
    destruct (reachable_inv cap t0 Hcap Hr0) as [n Hinv].
    destruct (tree_reads cap n t0 Hcap Hinv) as (Hf & _).
    rewrite Hf in Hfind. injection Hfind as Hin. apply bool_decide_eq_true in Hin.
    destruct (tree_insert_inv cap n t0 key Hcap Hinv)
      as (root & promo & s' & _ & Heq & _ & _ & Hdup). cbv zeta in *.
    by rewrite (Hdup Hin) in Heq. }
  split; [by apply Hnoop|].
  intros t1 Hins.
  assert (Hr1 : reachable cap t1) by (eapply reach_insert; eauto).
  assert (Hagain : BPTree.insert key t1 = Ok (tt, t1)).
  { apply Hnoop; [done|].
    destruct (reachable_inv cap t Hcap Hr) as [n Hinv].
    destruct (tree_insert_inv cap n t key Hcap Hinv)
      as (root & promo & s' & _ & Heq & Hinv1 & Hel & _). cbv zeta in *.
    rewrite Hins in Heq. injection Heq as ->.
    destruct (tree_reads cap _ _ Hcap Hinv1) as (Hf & _).
    rewrite Hf. do 2 f_equal. apply bool_decide_eq_true. apply Hel. by left. }
  split; [done|].
  intros t2 Hins2. rewrite Hagain in Hins2. by injection Hins2 as <-.
Qed.

Lemma insert_present_noop_witness :
  1 <= 3 /\ reachable 3 scenario_a /\
  (BPTree.find 8 scenario_a = Ok (true, scenario_a) ->
   BPTree.insert 8 scenario_a = Ok (tt, scenario_a)) /\
  (forall t1, BPTree.insert 8 scenario_a = Ok (tt, t1) ->
     BPTree.insert 8 t1 = Ok (tt, t1) /\
     forall t2, BPTree.insert 8 t1 = Ok (tt, t2) ->
       BPTree.keys t2 = BPTree.keys t1 /\ BPTree.stats t2 = BPTree.stats t1).
Proof.
  assert (H1 : 1 <= 3) by lia.
  split; [exact H1|]. split; [exact scenario_a_reachable|].
  exact (insert_present_noop 3 scenario_a 8 H1 scenario_a_reachable).
Defined.

(** C6 (capacity).  After every insert on a tree constructed with a
    capacity of at least 1, no node of the tree and no leaf of the tree
    holds more keys than the capacity. *)
Theorem capacity_respected (cap : Z) (t : BPTree) :
  1 <= cap -> reachable cap t ->
  _capacity t = cap /\ within_capacity t = true.
Proof.
  intros Hcap Hr. destruct (reachable_inv cap t Hcap Hr) as [n Hinv].
  destruct Hinv as (Hc & bl & Hshape & Hok & _). split; [done|].
  unfold within_capacity. rewrite Hc. apply andb_true_iff. split.
  - eapply shape_nodes_within; eauto.
  - rewrite (shape_leaves _ _ _ _ _ _ Hshape). by apply leaves_ok_within.
Qed.

Lemma capacity_respected_witness :
  1 <= 3 /\ reachable 3 scenario_a /\
  _capacity scenario_a = 3 /\ within_capacity scenario_a = true.
Proof.
  assert (H1 : 1 <= 3) by lia.
  split; [exact H1|]. split; [exact scenario_a_reachable|].
  exact (capacity_respected 3 scenario_a H1 scenario_a_reachable).
Defined.

(** C7, as the code has it.  The constructor checks nothing: for every
    capacity, positive or not, it returns a tree whose root is a new empty
    leaf. *)
Theorem init_any_capacity (capacity : Z) :
  BPTree.init capacity =
    Ok (mkTree (Leaf 0) capacity [mkLeaf [] None capacity]).
Proof. reflexivity. Qed.

(** C7 as stated fails: capacity 0 is accepted, and the tree it gives takes
    an insert and finds the key again. *)
Lemma init_zero_capacity_succeeds :
  0 < 1 /\
  BPTree.init 0 = Ok (mkTree (Leaf 0) 0 [mkLeaf [] None 0]) /\
  (forall e, BPTree.init 0 <> Err e) /\
  run (BPTree.find 7) (build 0 [7]) = Ok true.
Proof.
  split; [lia|]. split; [reflexivity|]. split; [discriminate|reflexivity].
Qed.

(** C8 (balance).  In every state reached by inserts on a tree of capacity
    at least 1 all leaves are at one depth, [height() - 1].  An insert that
    comes back to the root without a promotion leaves the root slot and the
    height as they are; one that comes back with [(pkey, sibling)] makes
    the root a new node with the key [pkey] and the two children old root
    and sibling, and the height one more. *)
Theorem balanced_growth (cap : Z) (t : BPTree) :
  1 <= cap -> reachable cap t ->
  exists n : nat,
    BPTree.height t = Ok (Z.of_nat n + 1, t) /\
    Forall (eq n) (leaf_depths (_tree t)) /\
    forall key, exists root promo s' t',
      BPTreeNode.insert (_tree t) key (_leaves t) = Ok ((root, promo), s') /\
      BPTree.insert key t = Ok (tt, t') /\
      match promo with
      | None =>
          _tree t' = root /\
          BPTree.height t' = Ok (Z.of_nat n + 1, t') /\
          Forall (eq n) (leaf_depths (_tree t'))
      | Some (pkey, sibling) =>
          _tree t' = Node [pkey] [root; sibling] cap /\
          BPTree.height t' = Ok (Z.of_nat n + 1 + 1, t') /\
          Forall (eq (S n)) (leaf_depths (_tree t'))
      end.
Proof.
  intros Hcap Hr. destruct (reachable_inv cap t Hcap Hr) as [n Hinv].
  exists n.
  destruct (tree_reads cap n t Hcap Hinv) as (_ & _ & Hh & _).
  assert (Hdepth : forall m t0, tree_inv cap m t0 -> Forall (eq m) (leaf_depths (_tree t0))).
  { intros m t0 (_ & bl & Hshape & _). eapply shape_depths; eauto. }
  split_and!; auto.
  intros key.
  destruct (tree_insert_inv cap n t key Hcap Hinv)
    as (root & promo & s' & Hins & Heq & Hinv' & _). cbv zeta in *.
  exists root, promo, s'. eexists. split; [exact Hins|]. split; [exact Heq|].
  destruct (tree_reads cap _ _ Hcap Hinv') as (_ & _ & Hh' & _).
  pose proof (Hdepth _ _ Hinv') as Hd'.
  destruct promo as [[pkey sibling]|]; simpl in *.
  - split_and!; auto. rewrite Hh'. do 2 f_equal. lia.
  - split_and!; auto.
Qed.

Lemma balanced_growth_witness :
  1 <= 3 /\ reachable 3 scenario_a /\
  exists n : nat,
    BPTree.height scenario_a = Ok (Z.of_nat n + 1, scenario_a) /\
    Forall (eq n) (leaf_depths (_tree scenario_a)) /\
    forall key, exists root promo s' t',
      BPTreeNode.insert (_tree scenario_a) key (_leaves scenario_a)
        = Ok ((root, promo), s') /\
      BPTree.insert key scenario_a = Ok (tt, t') /\
      match promo with
      | None =>
          _tree t' = root /\
          BPTree.height t' = Ok (Z.of_nat n + 1, t') /\
          Forall (eq n) (leaf_depths (_tree t'))
      | Some (pkey, sibling) =>
          _tree t' = Node [pkey] [root; sibling] 3 /\
          BPTree.height t' = Ok (Z.of_nat n + 1 + 1, t') /\
          Forall (eq (S n)) (leaf_depths (_tree t'))
      end.
Proof.
  assert (H1 : 1 <= 3) by lia.
  split; [exact H1|]. split; [exact scenario_a_reachable|].
  exact (balanced_growth 3 scenario_a H1 scenario_a_reachable).
Defined.

(** C9 (statistics).  In every state reached by inserts on a tree of
    capacity at least 1, [stats()] is the tuple of [height()],
    [num_nodes()], [num_leaves()] and [num_keys()] in that order; the height
    is the height of the root plus one, the nodes counted are the
    [BPTreeNode] objects, the leaves those of the tree and the keys those
    [keys()] lists.  A new tree reports [(1, 0, 1, 0)]. *)
Theorem stats_tuple (cap : Z) (t : BPTree) :
  1 <= cap -> reachable cap t ->
  exists h nn nl nk root_height,
    BPTree.stats t = Ok ((h, nn, nl, nk), t) /\
    BPTree.height t = Ok (h, t) /\
    BPTree.num_nodes t = Ok (nn, t) /\
    BPTree.num_leaves t = Ok (nl, t) /\
    BPTree.num_keys t = Ok (nk, t) /\
    BPTreeNode.height (_tree t) (_leaves t) = Ok (root_height, _leaves t) /\
    h = root_height + 1 /\
    nn = count_nodes (_tree t) /\
    nl = len (leaves_of (_tree t)) /\
    (exists l, BPTree.keys t = Ok (l, t) /\ nk = len l) /\
    (forall t0, BPTree.init cap = Ok t0 -> BPTree.stats t0 = Ok ((1, 0, 1, 0), t0)).
Proof.
  intros Hcap Hr. destruct (reachable_inv cap t Hcap Hr) as [n Hinv].
  destruct (tree_reads cap n t Hcap Hinv) as (_ & Hk & Hh & Hnn & Hnl & Hnk & Hst).
  assert (Hinv' := Hinv). destruct Hinv' as (_ & bl & Hshape & Hok & _).
  destruct (node_counts_spec cap (_leaves t) n _ _ _ _ Hshape Hok) as (Hrh & _).
  exists (Z.of_nat n + 1), (count_nodes (_tree t)), (len (leaves_of (_tree t))),
    (len (tree_keys t)), (Z.of_nat n).
  split_and!; auto.
  - by exists (tree_keys t).
  - intros t0 Hinit. unfold BPTree.init, alloc in Hinit. by injection Hinit as <-.
Qed.

Lemma stats_tuple_witness :
  1 <= 3 /\ reachable 3 scenario_a /\
  exists h nn nl nk root_height,
    BPTree.stats scenario_a = Ok ((h, nn, nl, nk), scenario_a) /\
    BPTree.height scenario_a = Ok (h, scenario_a) /\
    BPTree.num_nodes scenario_a = Ok (nn, scenario_a) /\
    BPTree.num_leaves scenario_a = Ok (nl, scenario_a) /\
    BPTree.num_keys scenario_a = Ok (nk, scenario_a) /\
    BPTreeNode.height (_tree scenario_a) (_leaves scenario_a)
      = Ok (root_height, _leaves scenario_a) /\
    h = root_height + 1 /\
    nn = count_nodes (_tree scenario_a) /\
    nl = len (leaves_of (_tree scenario_a)) /\
    (exists l, BPTree.keys scenario_a = Ok (l, scenario_a) /\ nk = len l) /\
    (forall t0, BPTree.init 3 = Ok t0 -> BPTree.stats t0 = Ok ((1, 0, 1, 0), t0)).
Proof.
  assert (H1 : 1 <= 3) by lia.
  split; [exact H1|]. split; [exact scenario_a_reachable|].
  exact (stats_tuple 3 scenario_a H1 scenario_a_reachable).
Defined.

(** C10 (reads).  In every state reached by inserts on a tree of capacity
    at least 1, each of [find], [keys], [height], [num_nodes], [num_leaves],
    [num_keys] and [stats] returns and leaves the tree exactly as it was. *)
Theorem reads_leave_tree (cap : Z) (t : BPTree) :
  1 <= cap -> reachable cap t ->
  (forall key, exists b, BPTree.find key t = Ok (b, t)) /\
  (exists l, BPTree.keys t = Ok (l, t)) /\
  (exists h, BPTree.height t = Ok (h, t)) /\
  (exists nn, BPTree.num_nodes t = Ok (nn, t)) /\
  (exists nl, BPTree.num_leaves t = Ok (nl, t)) /\
  (exists nk, BPTree.num_keys t = Ok (nk, t)) /\
  (exists st, BPTree.stats t = Ok (st, t)).
Proof.
  intros Hcap Hr. destruct (reachable_inv cap t Hcap Hr) as [n Hinv].
  destruct (tree_reads cap n t Hcap Hinv) as (Hf & Hk & Hh & Hnn & Hnl & Hnk & Hst).
  split_and!; eauto.
Qed.

Lemma reads_leave_tree_witness :
  1 <= 3 /\ reachable 3 scenario_a /\
  (forall key, exists b, BPTree.find key scenario_a = Ok (b, scenario_a)) /\
  (exists l, BPTree.keys scenario_a = Ok (l, scenario_a)) /\
  (exists h, BPTree.height scenario_a = Ok (h, scenario_a)) /\
  (exists nn, BPTree.num_nodes scenario_a = Ok (nn, scenario_a)) /\
  (exists nl, BPTree.num_leaves scenario_a = Ok (nl, scenario_a)) /\
  (exists nk, BPTree.num_keys scenario_a = Ok (nk, scenario_a)) /\
  (exists st, BPTree.stats scenario_a = Ok (st, scenario_a)).
Proof.
  assert (H1 : 1 <= 3) by lia.
  split; [exact H1|]. split; [exact scenario_a_reachable|].
  exact (reads_leave_tree 3 scenario_a H1 scenario_a_reachable).
Defined.

(** * Further properties of the source *)

(** ** Runs of inserts with repeated keys *)

Lemma sorted_lt_unique (l1 l2 : list Z) :
  StronglySorted Z.lt l1 -> StronglySorted Z.lt l2 ->
  (forall x, x ∈ l1 <-> x ∈ l2) -> l1 = l2.
Proof.
  intros H1 H2 Hel.
  apply (StronglySorted_unique_strong Z.lt); auto.
  - intros x1 x2 _ _ ? ?. lia.
  - apply NoDup_Permutation; auto using sorted_lt_NoDup.
Qed.

(** X1.  Whatever the order of the inserts and however often a key is
    repeated, a run of inserts on a new tree of capacity at least 1
    succeeds and [keys()] is the strictly increasing list of the keys
    inserted; two runs with the same set of keys list the same keys and
    answer every [find] alike. *)
Theorem keys_depend_on_key_set (cap : Z) (ks1 ks2 : list Z) :
  1 <= cap -> (forall x, x ∈ ks1 <-> x ∈ ks2) ->
  exists t1 t2 l,
    build cap ks1 = Ok t1 /\ build cap ks2 = Ok t2 /\
    BPTree.keys t1 = Ok (l, t1) /\ BPTree.keys t2 = Ok (l, t2) /\
    StronglySorted Z.lt l /\ (forall x, x ∈ l <-> x ∈ ks1) /\
    forall k, exists b, BPTree.find k t1 = Ok (b, t1) /\ BPTree.find k t2 = Ok (b, t2).
Proof.
  intros Hcap Hsame.
  destruct (build_inv cap ks1 Hcap) as (t1 & n1 & Hb1 & Hinv1 & Hel1).
  destruct (build_inv cap ks2 Hcap) as (t2 & n2 & Hb2 & Hinv2 & Hel2).
  destruct (tree_reads cap n1 t1 Hcap Hinv1) as (Hf1 & Hk1 & _).
  destruct (tree_reads cap n2 t2 Hcap Hinv2) as (Hf2 & Hk2 & _).
  pose proof (tree_keys_sorted cap n1 t1 Hinv1) as Hs1.
  pose proof (tree_keys_sorted cap n2 t2 Hinv2) as Hs2.
  assert (Heq : tree_keys t2 = tree_keys t1).
  { apply sorted_lt_unique; auto. intros x. rewrite Hel1, Hel2. symmetry. apply Hsame. }
  exists t1, t2, (tree_keys t1). rewrite <- Heq at 2. split_and!; auto.
  intros k. exists (bool_decide (k ∈ tree_keys t1)). split; [done|].
  by rewrite Hf2, Heq.
Qed.

Lemma keys_depend_on_key_set_witness :
  1 <= 2 /\ (forall x, x ∈ [5; 1; 5; 9; 1] <-> x ∈ [9; 5; 1]) /\
  exists t1 t2 l,
    build 2 [5; 1; 5; 9; 1] = Ok t1 /\ build 2 [9; 5; 1] = Ok t2 /\
    BPTree.keys t1 = Ok (l, t1) /\ BPTree.keys t2 = Ok (l, t2) /\
    StronglySorted Z.lt l /\ (forall x, x ∈ l <-> x ∈ [5; 1; 5; 9; 1]) /\
    forall k, exists b, BPTree.find k t1 = Ok (b, t1) /\ BPTree.find k t2 = Ok (b, t2).
Proof.
  assert (H1 : 1 <= 2) by lia.
  assert (H2 : forall x, x ∈ [5; 1; 5; 9; 1] <-> x ∈ [9; 5; 1]) by set_solver.
  split; [exact H1|]. split; [exact H2|].
  exact (keys_depend_on_key_set 2 [5; 1; 5; 9; 1] [9; 5; 1] H1 H2).
Defined.

(** ** One insert, seen through the read methods *)

(** X2.  In a state reached by inserts on a tree of capacity at least 1,
    [insert(key)] returns; afterwards [find(key)] is true, [find] of every
    other key answers as before, and [num_keys()] is one more than before
    if the key was absent and the same if it was present. *)
Theorem insert_then_find (cap : Z) (t : BPTree) (key : Z) :
  1 <= cap -> reachable cap t ->
  exists t' present n,
    BPTree.insert key t = Ok (tt, t') /\
    BPTree.find key t = Ok (present, t) /\
    BPTree.find key t' = Ok (true, t') /\
    (forall k, k <> key ->
       exists b, BPTree.find k t = Ok (b, t) /\ BPTree.find k t' = Ok (b, t')) /\
    BPTree.num_keys t = Ok (n, t) /\
    BPTree.num_keys t' = Ok (if present then n else n + 1, t').
Proof.
  intros Hcap Hr. destruct (reachable_inv cap t Hcap Hr) as [n Hinv].
  destruct (tree_insert_inv cap n t key Hcap Hinv)
    as (root & promo & s' & _ & Heq & Hinv' & Hel & Hdup). cbv zeta in *.
  set (t' := mkTree (new_root cap root promo) cap s') in *.
  destruct (tree_reads cap n t Hcap Hinv) as (Hf & _ & _ & _ & _ & Hnk & _).
  destruct (tree_reads cap _ t' Hcap Hinv') as (Hf' & _ & _ & _ & _ & Hnk' & _).
  exists t', (bool_decide (key ∈ tree_keys t)), (len (tree_keys t)).
  split_and!; auto.
  - rewrite Hf'. do 2 f_equal. apply bool_decide_eq_true. apply Hel. by left.
  - intros k Hne. exists (bool_decide (k ∈ tree_keys t)). split; [done|].
    rewrite Hf'. do 2 f_equal. apply bool_decide_ext. rewrite Hel. naive_solver.
  - rewrite Hnk'. do 2 f_equal. case_bool_decide as Hin.
    + by rewrite (Hdup Hin).
    + unfold len.
      assert (Hperm : tree_keys t' ≡ₚ key :: tree_keys t).
      { apply NoDup_Permutation.
        - eapply sorted_lt_NoDup, tree_keys_sorted; eauto.
        - apply NoDup_cons. split; [done|].
          eapply sorted_lt_NoDup, tree_keys_sorted; eauto.
        - intros x. rewrite Hel, elem_of_cons. done. }
      rewrite Hperm. simpl. lia.
Qed.

Lemma insert_then_find_witness :
  1 <= 3 /\ reachable 3 scenario_a /\
  exists t' present n,
    BPTree.insert 11 scenario_a = Ok (tt, t') /\
    BPTree.find 11 scenario_a = Ok (present, scenario_a) /\
    BPTree.find 11 t' = Ok (true, t') /\
    (forall k, k <> 11 ->
       exists b, BPTree.find k scenario_a = Ok (b, scenario_a) /\
                 BPTree.find k t' = Ok (b, t')) /\
    BPTree.num_keys scenario_a = Ok (n, scenario_a) /\
    BPTree.num_keys t' = Ok (if present then n else n + 1, t').
Proof.
  assert (H1 : 1 <= 3) by lia.
  split; [exact H1|]. split; [exact scenario_a_reachable|].
  exact (insert_then_find 3 scenario_a 11 H1 scenario_a_reachable).
Defined.

(** ** The chain of leaves and the order of the tree *)

(** X3.  In a state reached by inserts on a tree of capacity at least 1 the
    [_next] attributes link the leaves of the tree in its left-to-right
    order, each leaf once, and the last leaf has no successor; [keys()] is
    the keys of these leaves in that order and [num_leaves()] their
    number. *)
Theorem chain_follows_tree (cap : Z) (t : BPTree) :
  1 <= cap -> reachable cap t ->
  chain (_leaves t) (leaves_of (_tree t)) None /\
  NoDup (leaves_of (_tree t)) /\
  BPTree.keys t = Ok (contents (_leaves t) (leaves_of (_tree t)), t) /\
  BPTree.num_leaves t = Ok (len (leaves_of (_tree t)), t).
Proof.
  intros Hcap Hr. destruct (reachable_inv cap t Hcap Hr) as [n Hinv].
  destruct (tree_reads cap n t Hcap Hinv) as (_ & Hk & _ & _ & Hnl & _).
  destruct Hinv as (_ & bl & Hshape & _ & Hnd & Hch).
  unfold tree_keys in Hk.
  rewrite <- (shape_leaves _ _ _ _ _ _ Hshape) in Hnd, Hch. by split_and!.
Qed.

Lemma chain_follows_tree_witness :
  1 <= 3 /\ reachable 3 scenario_a /\
  chain (_leaves scenario_a) (leaves_of (_tree scenario_a)) None /\
  NoDup (leaves_of (_tree scenario_a)) /\
  BPTree.keys scenario_a
    = Ok (contents (_leaves scenario_a) (leaves_of (_tree scenario_a)), scenario_a) /\
  BPTree.num_leaves scenario_a = Ok (len (leaves_of (_tree scenario_a)), scenario_a).
Proof.
  assert (H1 : 1 <= 3) by lia.
  split; [exact H1|]. split; [exact scenario_a_reachable|].
  exact (chain_follows_tree 3 scenario_a H1 scenario_a_reachable).
Defined.

(** ** The order of keys below a node *)






(** ** A leaf with room *)

(** X5.  When the keys of a leaf, after [insert] has placed [key], are not
    more than its capacity, the call promotes nothing and writes only the
    keys of that leaf; if the keys were strictly increasing they still are,
    they are the old keys and [key], and a key already there leaves the
    store as it was. *)
Theorem leaf_insert_fits (s : store) (a : addr) (lf : BPTreeLeaf) (key : Z) :
  s !! a = Some lf ->
  let ks := keys_after_insert (leaf_keys lf) key in
  len ks <= leaf_capacity lf ->
  BPTreeLeaf.insert a key s =
    Ok (None, <[a := mkLeaf ks (leaf_next lf) (leaf_capacity lf)]> s) /\
  (StronglySorted Z.lt (leaf_keys lf) ->
     StronglySorted Z.lt ks /\
     (forall x, x ∈ ks <-> x = key \/ x ∈ leaf_keys lf) /\
     (key ∈ leaf_keys lf ->
        <[a := mkLeaf ks (leaf_next lf) (leaf_capacity lf)]> s = s)).
Proof.
  intros Ha ks Hfit.
  pose proof (leaf_insert_eq s a lf key Ha) as Heq. cbv zeta in Heq. fold ks in Heq.
  destruct (Z.ltb_spec (leaf_capacity lf) (len ks)) as [?|_]; [lia|].
  split; [done|]. intros Hs.
  destruct (keys_after_insert_sorted (leaf_keys lf) key Hs) as (Hs' & Hel & Hdup & _).
  split_and!; auto.
  intros Hin. unfold ks. rewrite (Hdup Hin), leaf_eta. by apply list_insert_id.
Qed.

Lemma leaf_insert_fits_witness :
  let s := [mkLeaf [3; 15] None 3] in
  s !! 0%nat = Some (mkLeaf [3; 15] None 3) /\
  len (keys_after_insert [3; 15] 8) <= 3 /\
  BPTreeLeaf.insert 0 8 s = Ok (None, [mkLeaf [3; 8; 15] None 3]) /\
  (StronglySorted Z.lt [3; 15] ->
     StronglySorted Z.lt [3; 8; 15] /\
     (forall x, x ∈ [3; 8; 15] <-> x = 8 \/ x ∈ [3; 15]) /\
     (8 ∈ [3; 15] -> [mkLeaf [3; 8; 15] None 3] = s)).
Proof.
  intros s.
  assert (H1 : s !! 0%nat = Some (mkLeaf [3; 15] None 3)) by reflexivity.
  assert (H2 : len (keys_after_insert [3; 15] 8) <= 3) by (vm_compute; discriminate).
  split; [exact H1|]. split; [exact H2|].
  exact (leaf_insert_fits s 0%nat (mkLeaf [3; 15] None 3) 8 H1 H2).
Defined.

(** ** What one insert writes *)

Lemma keys_after_insert_length (keys : list Z) (key : Z) :
  (length keys <= length (keys_after_insert keys key) <= S (length keys))%nat.
Proof.
  unfold keys_after_insert.
  destruct (bisect_left keys key =? length keys)%nat.
  - rewrite length_list_insert_at. lia.
  - destruct (keys !! bisect_left keys key) as [k|]; [|lia].
    destruct (negb (k =? key)); [rewrite length_list_insert_at|]; lia.
Qed.

(** The leaf an insert reaches, what the call stores there and, when the
    leaf is cut, where the new leaf goes. *)
Lemma node_insert_effect (cap : Z) (n : nat) (lo hi : bound) (p : pointer)
    (bl : list binfo) (s : store) (key : Z) :
  1 <= cap ->
  shape cap n lo hi p bl -> leaves_ok cap s bl -> in_range lo hi key ->
  exists b1 a r b2 lf,
    bl = b1 ++ (a, r) :: b2 /\ s !! a = Some lf /\
    let ks := keys_after_insert (leaf_keys lf) key in
    let j := Z.to_nat (split_index cap) in
    (len ks <= cap /\
     BPTreeNode.insert p key s
       = Ok ((p, None), <[a := mkLeaf ks (leaf_next lf) cap]> s))
    \/
    (len ks = cap + 1 /\
     exists p' promo pk,
       BPTreeNode.insert p key s
         = Ok ((p', promo),
               <[a := mkLeaf (take j ks) (Some (length s)) cap]> s
                 ++ [mkLeaf (drop j ks) (leaf_next lf) cap]) /\
       grown cap n lo hi p' promo
         (b1 ++ (a, (r.1, Some pk)) :: (length s, (Some pk, r.2)) :: b2)).
Proof.
  intros Hcap Hshape Hok Hkey.
  destruct (descend cap Hcap _ _ _ _ _ key Hshape Hkey)
    as (b1 & a & lo_a & hi_a & b2 & -> & Hra & _ & Hins0 & Hins1).
  assert (Hok' := Hok). apply Forall_app in Hok' as [_ Hok2].
  apply Forall_cons in Hok2 as [(lf & Ha & Hlf) _]. simpl in Ha, Hlf.
  exists b1, a, (lo_a, hi_a), b2, lf. split; [done|]. split; [done|]. cbv zeta.
  pose proof (leaf_insert_eq s a lf key Ha) as Heq. cbv zeta in Heq.
  assert (Hc : leaf_capacity lf = cap) by apply Hlf. rewrite Hc in Heq.
  pose proof (keys_after_insert_length (leaf_keys lf) key) as Hlen.
  assert (Hfull : len (leaf_keys lf) <= cap) by apply Hlf.
  set (ks := keys_after_insert (leaf_keys lf) key) in *.
  destruct (Z.ltb_spec cap (len ks)) as [Hover|Hfit].
  - right. split; [unfold len in *; lia|].
    destruct (leaf_insert_spec cap s a lf lo_a hi_a key Hcap Ha Hlf Hra)
      as [(lf' & Heq' & _)
         |(lf' & new & pk & Heq' & _ & _ & Hlo & Hhi & _)].
    { rewrite Heq in Heq'. by destruct (getitem (slice_from ks (split_index cap)) 0). }
    rewrite Heq in Heq'.
    destruct (getitem (slice_from ks (split_index cap)) 0) as [pk'|]; [|done].
    injection Heq' as -> Hstore.
    pose proof (split_index_bounds cap Hcap) as Hsi.
    unfold slice_to, slice_from in Heq, Hstore.
    rewrite slice_bound_nonneg in Heq, Hstore by lia.
    destruct (Hins1 s _ pk (length s) Heq Hlo Hhi) as (p' & promo & Hp' & Hg).
    by exists p', promo, pk.
  - left. split; [done|]. by apply Hins0.
Qed.

Lemma grown_leaves (cap : Z) (n : nat) (lo hi : bound) (p' : pointer)
    (promo : option (Z * pointer)) (bl : list binfo) :
  grown cap n lo hi p' promo bl ->
  leaves_of (new_root cap p' promo) = bl.*1 /\
  ((2 <= length bl)%nat -> exists ks cs c, new_root cap p' promo = Node ks cs c).
Proof.
  destruct promo as [[pk q]|]; simpl.
  - intros (ba & bb & -> & Ha & Hb & _). split; [|by eauto].
    rewrite app_nil_r, fmap_app.
    by rewrite (shape_leaves _ _ _ _ _ _ Ha), (shape_leaves _ _ _ _ _ _ Hb).
  - intros Hs. split; [by eapply shape_leaves|].
    destruct n, p'; simpl in Hs; try done; [|by eauto].
    subst. simpl. lia.
Qed.

Lemma tree_insert_effect (cap : Z) (n : nat) (t : BPTree) (key : Z) :
  1 <= cap -> tree_inv cap n t ->
  exists l1 a l2 lf,
    leaves_of (_tree t) = l1 ++ a :: l2 /\
    (a ∉ l1) /\ (a ∉ l2) /\
    (forall x, x ∈ l1 ++ a :: l2 -> (x < length (_leaves t))%nat) /\
    _leaves t !! a = Some lf /\
    let ks := keys_after_insert (leaf_keys lf) key in
    let j := Z.to_nat (split_index cap) in
    (len ks <= cap /\
     BPTree.insert key t =
       Ok (tt, mkTree (_tree t) cap (<[a := mkLeaf ks (leaf_next lf) cap]> (_leaves t))))
    \/
    (len ks = cap + 1 /\
     exists root,
       BPTree.insert key t =
         Ok (tt, mkTree root cap
                   (<[a := mkLeaf (take j ks) (Some (length (_leaves t))) cap]> (_leaves t)
                      ++ [mkLeaf (drop j ks) (leaf_next lf) cap])) /\
       leaves_of root = l1 ++ a :: length (_leaves t) :: l2 /\
       exists ks0 cs0 c0, root = Node ks0 cs0 c0).
Proof.
  intros Hcap (Hc & bl & Hshape & Hok & Hnd & Hch).
  assert (Hkey : in_range None None key) by (by split).
  destruct (node_insert_effect cap n None None _ bl (_leaves t) key Hcap Hshape Hok Hkey)
    as (b1 & a & r & b2 & lf & -> & Ha & Heff). cbv zeta in Heff.
  pose proof (leaves_ok_valid _ _ _ Hok) as Hvalid.
  rewrite fmap_app, fmap_cons in Hnd, Hvalid. simpl in Hnd, Hvalid.
  apply NoDup_app in Hnd as (_ & Hdisj & Hnd2).
  apply NoDup_cons in Hnd2 as [Hna2 _].
  exists b1.*1, a, b2.*1, lf.
  split; [by rewrite (shape_leaves _ _ _ _ _ _ Hshape), fmap_app|].
  split; [intros Hin; apply (Hdisj _ Hin); left|].
  split; [done|]. split; [done|]. split; [done|]. cbv zeta.
  destruct Heff as [[Hfit Hins]|(Hover & p' & promo & pk & Hins & Hg)].
  - left. split; [done|].
    rewrite (tree_insert_eq key t _ _ _ Hins), Hc. done.
  - right. split; [done|].
    destruct (grown_leaves _ _ _ _ _ _ _ Hg) as [Hl Hnode].
    exists (new_root cap p' promo). split_and!.
    + rewrite (tree_insert_eq key t _ _ _ Hins), Hc. done.
    + rewrite Hl, fmap_app. done.
    + apply Hnode. rewrite length_app. simpl. lia.
Qed.

(** X6.  In a state reached by inserts on a tree of capacity at least 1,
    [insert(key)] writes one leaf of the tree and no other leaf object;
    either it allocates nothing and leaves the root slot and the leaves of
    the tree as they were, or it allocates exactly one leaf, which comes
    right after the written leaf in the order of the tree. *)
Theorem insert_writes_one_leaf (cap : Z) (t : BPTree) (key : Z) :
  1 <= cap -> reachable cap t ->
  exists t' l1 a l2,
    BPTree.insert key t = Ok (tt, t') /\
    _capacity t' = _capacity t /\
    leaves_of (_tree t) = l1 ++ a :: l2 /\
    (forall a', a' <> a -> (a' < length (_leaves t))%nat ->
                _leaves t' !! a' = _leaves t !! a') /\
    ((length (_leaves t') = length (_leaves t) /\ _tree t' = _tree t)
     \/
     (length (_leaves t') = S (length (_leaves t)) /\
      leaves_of (_tree t') = l1 ++ a :: length (_leaves t) :: l2)).
Proof.
  intros Hcap Hr. destruct (reachable_inv cap t Hcap Hr) as [n Hinv].
  assert (Hc : _capacity t = cap) by apply Hinv.
  destruct (tree_insert_effect cap n t key Hcap Hinv)
    as (l1 & a & l2 & lf & Hl & _ & _ & _ & Ha & Heff). cbv zeta in Heff.
  assert (Hlt : (a < length (_leaves t))%nat) by (eapply lookup_lt_Some; eauto).
  destruct Heff as [[_ Hins]|(_ & root & Hins & Hl' & _)].
  - eexists _, l1, a, l2. split; [exact Hins|]. simpl. split_and!; auto.
    + intros a' Hne _. by apply list_lookup_insert_ne.
    + left. by rewrite length_insert.
  - eexists _, l1, a, l2. split; [exact Hins|]. simpl. split_and!; auto.
    + intros a' Hne Hlt'. rewrite lookup_app_l by (by rewrite length_insert).
      by apply list_lookup_insert_ne.
    + right. rewrite length_app, length_insert. simpl. split; [lia|done].
Qed.

Lemma insert_writes_one_leaf_witness :
  1 <= 3 /\ reachable 3 scenario_a /\
  exists t' l1 a l2,
    BPTree.insert 11 scenario_a = Ok (tt, t') /\
    _capacity t' = _capacity scenario_a /\
    leaves_of (_tree scenario_a) = l1 ++ a :: l2 /\
    (forall a', a' <> a -> (a' < length (_leaves scenario_a))%nat ->
                _leaves t' !! a' = _leaves scenario_a !! a') /\
    ((length (_leaves t') = length (_leaves scenario_a) /\ _tree t' = _tree scenario_a)
     \/
     (length (_leaves t') = S (length (_leaves scenario_a)) /\
      leaves_of (_tree t') = l1 ++ a :: length (_leaves scenario_a) :: l2)).
Proof.
  assert (H1 : 1 <= 3) by lia.
  split; [exact H1|]. split; [exact scenario_a_reachable|].
  exact (insert_writes_one_leaf 3 scenario_a 11 H1 scenario_a_reachable).
Defined.

Lemma reachable_half_full (cap : Z) (t : BPTree) :
  1 <= cap -> reachable cap t -> leaves_half_full t.
Proof.
  intros Hcap Hr. induction Hr as [t Hinit|t key t' Hr IH Hins].
  - unfold BPTree.init, alloc in Hinit. by injection Hinit as <-.
  - destruct (reachable_inv cap t Hcap Hr) as [n Hinv].
    assert (Hc : _capacity t = cap) by apply Hinv.
    destruct (tree_insert_effect cap n t key Hcap Hinv)
      as (l1 & a & l2 & lf & Hl & Hna1 & Hna2 & Hvalid & Ha & Heff). cbv zeta in Heff.
    pose proof (split_index_bounds cap Hcap) as Hsi.
    pose proof (keys_after_insert_length (leaf_keys lf) key) as Hlen.
    set (ks := keys_after_insert (leaf_keys lf) key) in *.
    assert (Hlt : (a < length (_leaves t))%nat) by (eapply lookup_lt_Some; eauto).
    assert (Hold : forall x, x ∈ l1 ++ l2 ->
              match _tree t with Leaf _ => False | Node _ _ _ =>
                split_index cap <= len (keys_at (_leaves t) x) end).
    { intros x Hx. unfold leaves_half_full in IH. rewrite Hc in IH.
      destruct (_tree t) as [a0|ks0 cs0 c0].
      - simpl in Hl. destruct l1 as [|? [|? ?]]; simplify_eq/=; set_solver.
      - rewrite Forall_forall in IH. apply IH. rewrite Hl. set_solver. }
    assert (Hself : match _tree t with Leaf _ => True | Node _ _ _ =>
              split_index cap <= len (leaf_keys lf) end).
    { unfold leaves_half_full in IH. rewrite Hc in IH.
      destruct (_tree t) as [a0|ks0 cs0 c0]; [done|].
      rewrite Forall_forall in IH. specialize (IH a). unfold keys_at in IH.
      rewrite Ha in IH. apply IH. rewrite Hl. set_solver. }
    destruct Heff as [[Hfit Heq]|(Hover & root & Heq & Hl' & ks0 & cs0 & c0 & ->)];
      rewrite Hins in Heq; injection Heq as ->; unfold leaves_half_full; simpl.
    + destruct (_tree t) as [a0|ks0 cs0 c0]; [done|].
      rewrite Hl. rewrite Forall_forall. intros x Hx.
      destruct (decide (x = a)) as [->|Hne].
      * unfold keys_at. rewrite list_lookup_insert_eq by done. simpl.
        unfold len in *. lia.
      * unfold keys_at. rewrite list_lookup_insert_ne by done.
        apply (Hold x). set_solver.
    + simpl in Hl'. rewrite Hl'. rewrite Forall_forall. intros x Hx.
      assert (Hcases : x = a \/ x = length (_leaves t) \/ x ∈ l1 ++ l2) by set_solver.
      destruct Hcases as [->|[->|Hx']].
      * unfold keys_at. rewrite lookup_app_l by (by rewrite length_insert).
        rewrite list_lookup_insert_eq by done. simpl.
        unfold len in *. rewrite length_take. lia.
      * unfold keys_at. rewrite lookup_app_r by (by rewrite length_insert).
        rewrite length_insert, Nat.sub_diag. simpl.
        unfold len in *. rewrite length_drop.
        assert (2 * split_index cap <= cap + 1) by (apply Z.mul_div_le; lia).
        lia.
      * assert (x <> a) by (intros ->; set_solver).
        assert (x < length (_leaves t))%nat by (apply Hvalid; set_solver).
        unfold keys_at. rewrite lookup_app_l by (by rewrite length_insert).
        rewrite list_lookup_insert_ne by done.
        specialize (Hold x Hx'). by destruct (_tree t).
Qed.

(** X7.  In a state reached by inserts on a tree of capacity at least 1,
    once the root is a node every leaf of the tree holds at least
    [split_index = (capacity + 1) // 2] keys: a split leaves that many in
    the old leaf and no fewer in the new one, and leaves only grow. *)
Theorem leaves_stay_half_full (cap : Z) (t : BPTree) :
  1 <= cap -> reachable cap t -> leaves_half_full t.
Proof. apply reachable_half_full. Qed.

Lemma leaves_stay_half_full_witness :
  1 <= 3 /\ reachable 3 scenario_a /\ leaves_half_full scenario_a.
Proof.
  assert (H1 : 1 <= 3) by lia.
  split; [exact H1|]. split; [exact scenario_a_reachable|].
  exact (leaves_stay_half_full 3 scenario_a H1 scenario_a_reachable).
Defined.

(** ** The rendering *)

Lemma append_assoc (s1 s2 s3 : string) :
  (s1 +:+ s2) +:+ s3 = s1 +:+ (s2 +:+ s3).
Proof.
  induction s1 as [|c s1 IH]; [done|].
  change (String c ((s1 +:+ s2) +:+ s3) = String c (s1 +:+ (s2 +:+ s3))).
  by f_equal.
Qed.

Lemma append_empty_r (s : string) : s +:+ "" = s.
Proof.
  induction s as [|c s IH]; [done|].
  change (String c (s +:+ "") = String c s). by f_equal.
Qed.

Lemma sbind_ok {A B} (m : TS A) (k : A -> TS B) (t t' : BPTree) (a : A) :
  m t = SOk (a, t') -> sbind m k t = k a t'.
Proof. unfold sbind. by intros ->. Qed.

Lemma call_ok {A} (m : T A) (t t' : BPTree) (a : A) :
  m t = Ok (a, t') -> call m t = SOk (a, t').
Proof. unfold call. by intros ->. Qed.

Section RenderProofs.

Variable str_keys : list Z -> string.

Lemma str_ok (cap : Z) (t : BPTree) (m : nat) lo hi p l :
  shape cap m lo hi p l -> leaves_ok cap (_leaves t) l ->
  BPTreeRender.str str_keys p t = SOk (str_at str_keys (_leaves t) p, t).
Proof.
  intros Hs Hok. destruct p as [a|ks cs c]; [|done].
  destruct m; [|done]. simpl in Hs. subst.
  apply Forall_cons in Hok as [(lf & Ha & _) _]. simpl in Ha.
  simpl. unfold sbind, read_leaf, sret, keys_at. by rewrite Ha.
Qed.

Lemma children_loop_ok (t : BPTree) (cs : list pointer) :
  Forall (fun c => BPTreeRender.str str_keys c t
                   = SOk (str_at str_keys (_leaves t) c, t)) cs ->
  forall acc,
    BPTreeRender.children_loop str_keys cs acc t
    = SOk (acc +:+ slots_line str_keys (_leaves t) cs, t).
Proof.
  induction 1 as [|c cs Hc Hcs IH]; intros acc; simpl.
  - unfold sret. by rewrite append_empty_r.
  - rewrite (sbind_ok _ _ _ _ _ Hc). rewrite IH. by rewrite append_assoc.
Qed.

Lemma slots_line_app (s : store) (l1 l2 : list pointer) :
  slots_line str_keys s (l1 ++ l2)
  = slots_line str_keys s l1 +:+ slots_line str_keys s l2.
Proof.
  induction l1 as [|c l1 IH]; simpl; [reflexivity|].
  rewrite IH. symmetry. apply append_assoc.
Qed.

Lemma grandchildren_loop_ok (t : BPTree) (cs : list pointer) :
  Forall (fun c => (exists ks kids cp, c = Node ks kids cp) /\
            Forall (fun k => BPTreeRender.str str_keys k t
                             = SOk (str_at str_keys (_leaves t) k, t)) (kids_of c)) cs ->
  forall acc,
    BPTreeRender.grandchildren_loop str_keys cs acc t
    = SOk (acc +:+ slots_line str_keys (_leaves t) (flat_map kids_of cs), t).
Proof.
  induction 1 as [|c cs [(ks & kids & cp & ->) Hk] Hcs IH]; intros acc; simpl.
  - unfold sret. by rewrite append_empty_r.
  - simpl in Hk. unfold sbind at 1. unfold sret at 1.
    rewrite (sbind_ok _ _ _ _ _ (children_loop_ok t kids Hk acc)).
    rewrite IH. by rewrite slots_line_app, append_assoc.
Qed.

Lemma first_loop_ok (cap : Z) (t : BPTree) (m : nat) : forall lo hi p bl,
  shape cap m lo hi p bl ->
  exists a r bl', bl = (a, r) :: bl' /\
    BPTreeRender.first_loop m p t = SOk (Leaf a, t).
Proof.
  induction m as [|m IH]; intros lo hi p bl Hs.
  - destruct p as [a|]; [|done]. simpl in Hs. subst. by eexists a, _, [].
  - destruct p as [|ks cs c]; [done|]. destruct Hs as (_ & _ & Hb).
    destruct Hb as [lo hi c0 bl HP|lo hi k ks c0 cs bl1 bl2 HP Hlo Hhi Hrest];
      destruct (IH _ _ _ _ HP) as (a & r & bl' & -> & Hk).
    + by exists a, r, bl'.
    + by exists a, r, (bl' ++ bl2).
Qed.

Lemma chain_loop_ok (t : BPTree) (l : list addr) :
  forall (fuel : nat) (a : addr) (acc : string),
    chain (_leaves t) (a :: l) None -> (length l < fuel)%nat ->
    exists pre z,
      BPTreeRender.chain_loop str_keys fuel (Leaf a) acc t = SOk ((pre, Leaf z), t) /\
      BPTreeRender.str str_keys (Leaf z) t
        = SOk (str_keys (keys_at (_leaves t) z), t) /\
      pre +:+ str_keys (keys_at (_leaves t) z)
        = acc +:+ leaf_line str_keys (_leaves t) (a :: l).
Proof.
  induction l as [|b l IH]; intros fuel a acc Hch Hfuel.
  - destruct fuel as [|fuel]; [simpl in Hfuel; lia|].
    destruct Hch as [(lf & Ha & Hn) _].
    exists acc, a. simpl. unfold sbind, read_leaf, sret, keys_at.
    rewrite Ha, Hn. simpl. done.
  - destruct fuel as [|fuel]; [simpl in Hfuel; lia|].
    destruct Hch as [(lf & Ha & Hn) Hch].
    destruct (IH fuel b (acc +:+ (str_keys (leaf_keys lf) +:+ "->")) Hch)
      as (pre & z & Hloop & Hstr & Hline); [simpl in Hfuel; lia|].
    exists pre, z. split_and!; auto.
    + assert (Hnext : next_of (Leaf a) t = SOk (Some (Leaf b), t)).
      { unfold next_of, sbind, read_leaf, sret. by rewrite Ha, Hn. }
      assert (Hstra : BPTreeRender.str str_keys (Leaf a) t
                      = SOk (str_keys (leaf_keys lf), t)).
      { unfold BPTreeRender.str, sbind, read_leaf, sret. by rewrite Ha. }
      cbn [BPTreeRender.chain_loop].
      rewrite (sbind_ok _ _ _ _ _ Hnext). cbv beta iota.
      rewrite (sbind_ok _ _ _ _ _ Hstra), (sbind_ok _ _ _ _ _ Hnext).
      exact Hloop.
    + rewrite Hline, append_assoc.
      change (leaf_line str_keys (_leaves t) (a :: b :: l))
        with ((str_keys (keys_at (_leaves t) a) +:+ "->")
                +:+ leaf_line str_keys (_leaves t) (b :: l)).
      unfold keys_at at 1. by rewrite Ha.
Qed.

Lemma levels_loop_ok (t : BPTree) (line : Z -> string) (levels : list Z) :
  (forall level s, level ∈ levels ->
     BPTreeRender.level_body str_keys level s t
     = SOk ((s +:+ line level) +:+ newline, t)) ->
  forall s,
    BPTreeRender.levels_loop str_keys levels s t
    = SOk (s +:+ unlines (map line levels), t).
Proof.
  induction levels as [|level levels IH]; intros Hbody s; simpl.
  - unfold sret. by rewrite append_empty_r.
  - rewrite (sbind_ok _ _ _ _ _ (Hbody level s ltac:(left))).
    rewrite IH by (intros; apply Hbody; by right).
    by rewrite !append_assoc.
Qed.

(** The rendering of a tree at rest, line by line. *)
Lemma render_spec (cap : Z) (n : nat) (t : BPTree) :
  1 <= cap -> tree_inv cap n t ->
  BPTreeRender.__str__ str_keys t
  = SOk (unlines (map (line_of str_keys t (Z.of_nat n + 1))
                      (seqZ 1 (Z.of_nat n + 1))), t).
Proof.
  intros Hcap Hinv.
  destruct (tree_reads cap n t Hcap Hinv) as (_ & _ & Hh & _ & _ & Hnk & _).
  destruct Hinv as (Hc & bl & Hshape & Hok & Hnd & Hch).
  unfold BPTreeRender.__str__.
  rewrite (sbind_ok _ _ _ _ _ (call_ok _ _ _ _ Hh)).
  rewrite (levels_loop_ok t (line_of str_keys t (Z.of_nat n + 1))); [done|].
  intros level s Hlevel. apply elem_of_seqZ in Hlevel.
  unfold BPTreeRender.level_body.
  match goal with
  | |- sbind ?m ?k t = _ =>
      assert (Hinner : m t = SOk (s +:+ line_of str_keys t (Z.of_nat n + 1) level, t));
        [|by rewrite (sbind_ok _ _ _ _ _ Hinner)]
  end.
  unfold line_of.
  destruct (Z.eqb_spec level 1) as [->|Hne1].
  { rewrite (sbind_ok _ _ _ _ _ (call_ok _ _ _ _ Hnk)).
    unfold sbind at 1. unfold get_tree.
    by rewrite (sbind_ok _ _ _ _ _ (str_ok cap t n _ _ _ _ Hshape Hok)). }
  rewrite (sbind_ok _ _ _ _ _ (call_ok _ _ _ _ Hh)).
  destruct n as [|n]; [lia|].
  destruct (_tree t) as [|ks cs c] eqn:Hroot; [done|].
  assert (Hb : bps (shape cap n) None None ks cs bl) by apply Hshape.
  pose proof (bps_children _ _ _ _ _ _ Hb) as Hkids.
  destruct (Z.eqb_spec level (Z.of_nat (S n) + 1)) as [->|Hneh].
  { destruct (first_loop_ok cap t (S n) _ _ _ _ Hshape) as (a & r & bl' & -> & Hfirst).
    rewrite fmap_cons in Hnd, Hch. simpl in Hnd, Hch.
    destruct (chain_loop_ok t bl'.*1 (length (_leaves t)) a s Hch)
      as (pre & z & Hloop & Hstr & Hline).
    { assert (length (a :: bl'.*1) <= length (_leaves t))%nat; [|simpl in *; lia].
      apply NoDup_bounded_length; [done|].
      intros x Hx. apply (leaves_ok_valid _ _ _ Hok). by rewrite fmap_cons. }
    cbn [BPTreeRender.first_loop] in Hfirst.
    unfold sbind at 1 in Hfirst.
    destruct (first_pointer (Node ks cs c) t) as [[c0 t0]|] eqn:Hfp; [|done].
    assert (t0 = t) as ->.
    { unfold first_pointer, pointers_of, sbind, sret in Hfp.
      destruct (cs !! 0%nat); [|done]. by injection Hfp. }
    unfold sbind at 1. unfold get_tree. rewrite Hroot.
    rewrite (sbind_ok _ _ _ _ _ Hfp).
    rewrite (sbind_ok _ _ _ _ _ (call_ok _ _ _ _ Hh)).
    replace (Z.to_nat (Z.of_nat (S n) + 1 - 2)) with n by lia.
    rewrite (sbind_ok _ _ _ _ _ Hfirst).
    unfold sbind at 1. rewrite (sbind_ok _ _ _ _ _ Hloop).
    rewrite (sbind_ok _ _ _ _ _ Hstr). unfold sret. cbn [fst snd].
    rewrite Hline. rewrite (shape_leaves _ _ _ _ _ _ Hshape). done. }
  assert (Hstrs : forall m (c0 : pointer) lo' hi' l,
            shape cap m lo' hi' c0 l -> l ⊆ bl ->
            BPTreeRender.str str_keys c0 t = SOk (str_at str_keys (_leaves t) c0, t)).
  { intros m c0 lo' hi' l Hs0 Hsub. eapply str_ok; [exact Hs0|].
    by eapply leaves_ok_subseteq. }
  destruct (Z.eqb_spec level 2) as [->|Hne2].
  { rewrite (sbind_ok _ _ _ _ _ (call_ok _ _ _ _ Hnk)).
    unfold sbind at 1. unfold get_tree. rewrite Hroot.
    unfold sbind at 1. unfold pointers_of, sret at 1.
    rewrite children_loop_ok.
    - cbn [kids_of]. by rewrite append_assoc.
    - eapply Forall_impl; [exact Hkids|]. simpl.
      intros c0 (lo' & hi' & l & Hs0 & Hsub). eauto. }
  destruct (Z.eqb_spec level 3) as [->|Hne3];
    [|unfold sret; by rewrite append_empty_r].
  rewrite (sbind_ok _ _ _ _ _ (call_ok _ _ _ _ Hnk)).
  unfold sbind at 1. unfold get_tree. rewrite Hroot.
  unfold sbind at 1. unfold pointers_of, sret at 1.
  rewrite grandchildren_loop_ok.
  - cbn [kids_of]. by rewrite append_assoc.
  - eapply Forall_impl; [exact Hkids|]. simpl.
    intros c0 (lo' & hi' & l & Hs0 & Hsub).
    destruct n as [|n]; [lia|].
    destruct c0 as [|ks0 cs0 cp0]; [done|]. split; [by eauto|].
    destruct Hs0 as (_ & _ & Hb0). simpl.
    eapply Forall_impl; [exact (bps_children _ _ _ _ _ _ Hb0)|]. simpl.
    intros k0 (lo2 & hi2 & l2 & Hs2 & Hsub2). eapply Hstrs; [exact Hs2|].
    set_solver.
Qed.

End RenderProofs.

Lemma render_lines (str_keys : list Z -> string) (cap : Z) (n : nat) (t : BPTree) :
  1 <= cap -> tree_inv cap n t ->
  exists lines,
    BPTreeRender.__str__ str_keys t = SOk (unlines lines, t) /\
    length lines = S n /\
    forall level, 1 <= level <= Z.of_nat n + 1 ->
      lines !! Z.to_nat (level - 1) = Some (line_of str_keys t (Z.of_nat n + 1) level).
Proof.
  intros Hcap Hinv. eexists. split; [by eapply render_spec|].
  split; [rewrite length_map, length_seqZ; lia|].
  intros level Hlevel. rewrite list_lookup_fmap, lookup_seqZ_lt by lia.
  simpl. do 2 f_equal. lia.
Qed.

Lemma tall_tree_built : build 1 tall_keys = Ok tall_tree.
Proof. vm_compute. reflexivity. Qed.

Lemma tall_tree_reachable : reachable 1 tall_tree.
Proof. apply (build_reachable 1 tall_keys). exact tall_tree_built. Qed.

(** X8.  In a state reached by inserts on a tree of capacity at least 1,
    [str(tree)] returns without an exception and leaves the tree as it is;
    it has as many lines as [height()], each closed by a newline; the first
    is [2 * num_keys()] spaces and the keys of the root, and, when the root
    is a node, the last is the leaves in the order of the chain, joined by
    ["->"]. *)
Theorem str_has_height_lines (str_keys : list Z -> string) (cap : Z) (t : BPTree) :
  1 <= cap -> reachable cap t ->
  exists h nk lines,
    BPTree.height t = Ok (h, t) /\
    BPTree.num_keys t = Ok (nk, t) /\
    BPTreeRender.__str__ str_keys t = SOk (unlines lines, t) /\
    len lines = h /\
    lines !! 0%nat
      = Some (str_mul (str_mul " " nk) 2 +:+ str_at str_keys (_leaves t) (_tree t)) /\
    (2 <= h ->
     lines !! Z.to_nat (h - 1)
       = Some (leaf_line str_keys (_leaves t) (leaves_of (_tree t)))).
Proof.
  intros Hcap Hr. destruct (reachable_inv cap t Hcap Hr) as [n Hinv].
  destruct (tree_reads cap n t Hcap Hinv) as (_ & _ & Hh & _ & _ & Hnk & _).
  destruct (render_lines str_keys cap n t Hcap Hinv) as (lines & Hstr & Hlen & Hline).
  exists (Z.of_nat n + 1), (len (tree_keys t)), lines. split_and!; auto.
  - unfold len. lia.
  - apply (Hline 1). lia.
  - intros Hh2. rewrite (Hline (Z.of_nat n + 1)) by lia. unfold line_of.
    destruct (Z.eqb_spec (Z.of_nat n + 1) 1); [lia|]. by rewrite Z.eqb_refl.
Qed.

Lemma str_has_height_lines_witness :
  1 <= 3 /\ reachable 3 scenario_a /\
  exists h nk lines,
    BPTree.height scenario_a = Ok (h, scenario_a) /\
    BPTree.num_keys scenario_a = Ok (nk, scenario_a) /\
    BPTreeRender.__str__ str_list scenario_a = SOk (unlines lines, scenario_a) /\
    len lines = h /\
    lines !! 0%nat
      = Some (str_mul (str_mul " " nk) 2
              +:+ str_at str_list (_leaves scenario_a) (_tree scenario_a)) /\
    (2 <= h ->
     lines !! Z.to_nat (h - 1)
       = Some (leaf_line str_list (_leaves scenario_a) (leaves_of (_tree scenario_a)))).
Proof.
  assert (H1 : 1 <= 3) by lia.
  split; [exact H1|]. split; [exact scenario_a_reachable|].
  exact (str_has_height_lines str_list 3 scenario_a H1 scenario_a_reachable).
Defined.

(** X9.  In a state reached by inserts on a tree of capacity at least 1,
    the lines of [str(tree)] between the first and the last are: at level 2
    (height at least 3) [num_keys()] spaces and the children of the root,
    each followed by a space; at level 3 (height at least 4) the same for
    the grandchildren; and an empty line for every level from 4 up to the
    one above the leaves: the nodes there are not shown. *)
Theorem str_middle_lines (str_keys : list Z -> string) (cap : Z) (t : BPTree) :
  1 <= cap -> reachable cap t ->
  exists h nk lines,
    BPTree.height t = Ok (h, t) /\
    BPTree.num_keys t = Ok (nk, t) /\
    BPTreeRender.__str__ str_keys t = SOk (unlines lines, t) /\
    (3 <= h ->
     lines !! 1%nat
       = Some (str_mul " " nk +:+ slots_line str_keys (_leaves t) (kids_of (_tree t)))) /\
    (4 <= h ->
     lines !! 2%nat
       = Some (str_mul " " nk
               +:+ slots_line str_keys (_leaves t) (flat_map kids_of (kids_of (_tree t))))) /\
    (forall level, 4 <= level < h -> lines !! Z.to_nat (level - 1) = Some "").
Proof.
  intros Hcap Hr. destruct (reachable_inv cap t Hcap Hr) as [n Hinv].
  destruct (tree_reads cap n t Hcap Hinv) as (_ & _ & Hh & _ & _ & Hnk & _).
  destruct (render_lines str_keys cap n t Hcap Hinv) as (lines & Hstr & Hlen & Hline).
  exists (Z.of_nat n + 1), (len (tree_keys t)), lines. split_and!; auto.
  - intros Hh3. pose proof (Hline 2 ltac:(lia)) as H2.
    change (Z.to_nat (2 - 1)) with 1%nat in H2. rewrite H2. unfold line_of.
    destruct (Z.eqb_spec 2 (Z.of_nat n + 1)); [lia|done].
  - intros Hh4. pose proof (Hline 3 ltac:(lia)) as H3.
    change (Z.to_nat (3 - 1)) with 2%nat in H3. rewrite H3. unfold line_of.
    destruct (Z.eqb_spec 3 (Z.of_nat n + 1)); [lia|done].
  - intros level Hlevel. rewrite (Hline level) by lia. unfold line_of.
    destruct (Z.eqb_spec level 1); [lia|].
    destruct (Z.eqb_spec level (Z.of_nat n + 1)); [lia|].
    destruct (Z.eqb_spec level 2); [lia|].
    destruct (Z.eqb_spec level 3); [lia|done].
Qed.

Lemma str_middle_lines_witness :
  1 <= 1 /\ reachable 1 tall_tree /\
  exists h nk lines,
    BPTree.height tall_tree = Ok (h, tall_tree) /\
    BPTree.num_keys tall_tree = Ok (nk, tall_tree) /\
    BPTreeRender.__str__ str_list tall_tree = SOk (unlines lines, tall_tree) /\
    (3 <= h ->
     lines !! 1%nat
       = Some (str_mul " " nk
               +:+ slots_line str_list (_leaves tall_tree) (kids_of (_tree tall_tree)))) /\
    (4 <= h ->
     lines !! 2%nat
       = Some (str_mul " " nk
               +:+ slots_line str_list (_leaves tall_tree)
                     (flat_map kids_of (kids_of (_tree tall_tree))))) /\
    (forall level, 4 <= level < h -> lines !! Z.to_nat (level - 1) = Some "").
Proof.
  assert (H1 : 1 <= 1) by lia.
  split; [exact H1|]. split; [exact tall_tree_reachable|].
  exact (str_middle_lines str_list 1 tall_tree H1 tall_tree_reachable).
Defined.

(** The rendering of the tall tree: levels 4 and 5 are empty lines. *)
Example tall_tree_rendering :
  BPTreeRender.__str__ str_list tall_tree =
    SOk (unlines
           ["                                  [17]";
            "                 [9] [] ";
            "                 [5] [13] [] ";
            "";
            "";
            "[1]->[2]->[3]->[4]->[5]->[6]->[7]->[8]->[9]->[10]->[11]->[12]->[13]->[14]->[15]->[16]->[17]"],
         tall_tree).
Proof. vm_compute. reflexivity. Qed.

(** ** How full the leaves are *)

Lemma contents_length_bounds (s : store) (lo hi : Z) (l : list addr) :
  Forall (fun a => lo <= len (keys_at s a) <= hi) l ->
  lo * len l <= len (contents s l) <= hi * len l.
Proof.
  induction 1 as [|a l Ha Hl IH]; simpl.
  - unfold len. simpl. lia.
  - unfold len in *. rewrite length_app. simpl length. lia.
Qed.

(** X10.  In a state reached by inserts on a tree of capacity at least 1,
    [num_keys()] is at most [capacity * num_leaves()], and once the tree
    has height at least 2 it is at least [split_index * num_leaves()]:
    the leaves are between half full and full. *)
Theorem leaves_fill_bounds (cap : Z) (t : BPTree) :
  1 <= cap -> reachable cap t ->
  exists h nl nk,
    BPTree.height t = Ok (h, t) /\
    BPTree.num_leaves t = Ok (nl, t) /\
    BPTree.num_keys t = Ok (nk, t) /\
    1 <= nl /\
    nk <= cap * nl /\
    (2 <= h -> split_index cap * nl <= nk).
Proof.
  intros Hcap Hr. destruct (reachable_inv cap t Hcap Hr) as [n Hinv].
  pose proof (reachable_half_full cap t Hcap Hr) as Hhalf.
  destruct (tree_reads cap n t Hcap Hinv) as (_ & _ & Hh & _ & Hnl & Hnk & _).
  destruct Hinv as (Hc & bl & Hshape & Hok & _).
  pose proof (shape_leaves _ _ _ _ _ _ Hshape) as Hl.
  pose proof (split_index_bounds cap Hcap) as Hsi.
  assert (Hfull : Forall (fun a => 0 <= len (keys_at (_leaves t) a) <= cap)
                         (leaves_of (_tree t))).
  { rewrite Hl. apply Forall_fmap. eapply Forall_impl; [exact Hok|]. simpl.
    intros b (lf & Ha & _ & Hlen & _). unfold keys_at. rewrite Ha.
    unfold len in *. lia. }
  exists (Z.of_nat n + 1), (len (leaves_of (_tree t))), (len (tree_keys t)).
  split_and!; auto.
  - destruct (shape_first _ _ _ _ _ _ Hshape) as (a & r & bl' & -> & _).
    rewrite Hl. unfold len. simpl. lia.
  - apply (contents_length_bounds _ 0 cap) in Hfull. unfold tree_keys. lia.
  - intros Hh2. unfold leaves_half_full in Hhalf. rewrite Hc in Hhalf.
    destruct (_tree t) as [a|ks cs c] eqn:Hroot.
    { destruct n; [lia|done]. }
    assert (Hboth : Forall (fun a => split_index cap <= len (keys_at (_leaves t) a) <= cap)
                           (leaves_of (Node ks cs c))).
    { rewrite Forall_forall in Hhalf, Hfull |- *. intros a Ha.
      specialize (Hhalf a Ha). specialize (Hfull a Ha). lia. }
    apply contents_length_bounds in Hboth. unfold tree_keys.
    rewrite Hroot. lia.
Qed.

Lemma leaves_fill_bounds_witness :
  1 <= 3 /\ reachable 3 scenario_a /\
  exists h nl nk,
    BPTree.height scenario_a = Ok (h, scenario_a) /\
    BPTree.num_leaves scenario_a = Ok (nl, scenario_a) /\
    BPTree.num_keys scenario_a = Ok (nk, scenario_a) /\
    1 <= nl /\
    nk <= 3 * nl /\
    (2 <= h -> split_index 3 * nl <= nk).
Proof.
  assert (H1 : 1 <= 3) by lia.
  split; [exact H1|]. split; [exact scenario_a_reachable|].
  exact (leaves_fill_bounds 3 scenario_a H1 scenario_a_reachable).
Defined.

(** ** How full the nodes are *)

Lemma min_keys_half (cap : Z) : min_keys cap = cap / 2.
Proof. unfold min_keys, split_index. Z.div_mod_to_equations. lia. Qed.

Lemma all_nodes_node (Q : list Z -> list pointer -> Prop)
    (ks : list Z) (cs : list pointer) (c : Z) :
  all_nodes Q (Node ks cs c) <-> Q ks cs /\ Forall (all_nodes Q) cs.
Proof.
  simpl. apply and_iff_compat_l.
  induction cs as [|c0 cs IH]; simpl.
  - split; auto.
  - rewrite Forall_cons. by rewrite IH.
Qed.

Lemma all_nodes_filled (cap : Z) (p : pointer) :
  all_nodes (fun ks _ => min_keys cap <= len ks) p <-> filled cap (min_keys cap) p.
Proof.
  destruct p as [a|ks cs c]; [done|]. by rewrite all_nodes_node.
Qed.

Lemma on_nth_inv {A} (f : pointer -> M A) (cs : list pointer) (i : nat)
    (s : store) (x : A * store) :
  on_nth f cs i s = Ok x -> exists c, cs !! i = Some c /\ f c s = Ok x.
Proof.
  revert i. induction cs as [|c0 cs IH]; intros i H; [done|].
  destruct i as [|i]; simpl in *; eauto.
Qed.

Lemma length_list_remove (x : Z) (l : list Z) :
  x ∈ l -> length (list_remove x l) = pred (length l).
Proof.
  induction l as [|y l IH]; intros Hx; [by apply elem_of_nil in Hx|].
  simpl. destruct (Z.eqb_spec y x) as [->|Hne]; [done|].
  apply elem_of_cons in Hx as [->|Hx]; [done|].
  simpl. rewrite IH by done. destruct l; [by apply elem_of_nil in Hx|done].
Qed.

Lemma leaf_insert_promotes_leaf (a : addr) (key : Z) (s s' : store)
    (pk : Z) (q : pointer) :
  BPTreeLeaf.insert a key s = Ok (Some (pk, q), s') -> exists a', q = Leaf a'.
Proof.
  destruct (s !! a) as [lf|] eqn:Ha.
  - rewrite (leaf_insert_eq s a lf key Ha). cbv zeta.
    destruct (_ <? _); [|done].
    destruct (getitem _ 0); [|done]. intros H. injection H as _ <- _. eauto.
  - unfold BPTreeLeaf.insert, bind, get_leaf. by rewrite Ha.
Qed.

(** [insert_here] on a node within capacity whose slots, and the promoted
    pointer, hold filled subtrees. *)
Lemma insert_here_filled (cap : Z) (ks : list Z) (cs : list pointer)
    (pos : nat) (pk : Z) (q : pointer) (r : Z) (s s' : store)
    (p' : pointer) (promo : option (Z * pointer)) :
  1 <= cap -> len ks <= cap -> r <= len ks ->
  Forall (all_nodes (fun ks _ => min_keys cap <= len ks)) cs ->
  all_nodes (fun ks _ => min_keys cap <= len ks) q ->
  BPTreeNode.insert_here ks cs cap pos pk q s = Ok ((p', promo), s') ->
  match promo with
  | None => filled cap r p'
  | Some (_, q') => filled cap (min_keys cap) p' /\ filled cap (min_keys cap) q'
  end.
Proof.
  intros Hcap Hlen Hr Hcs Hq. unfold BPTreeNode.insert_here.
  set (keys' := list_insert_at pos pk ks).
  set (pointers' := list_insert_at (pos + 1) q cs).
  assert (Hlen' : length keys' = S (length ks)) by apply length_list_insert_at.
  assert (Hps : Forall (all_nodes (fun ks _ => min_keys cap <= len ks)) pointers').
  { unfold pointers', list_insert_at. apply Forall_app. split.
    - by apply Forall_take.
    - constructor; [done|]. by apply Forall_drop. }
  pose proof (split_index_bounds cap Hcap) as Hsi.
  destruct (Z.ltb_spec cap (len keys')) as [Hover|Hfit].
  - rewrite getitem_nonneg by lia.
    destruct (keys' !! Z.to_nat (split_index cap)) as [pkey|] eqn:Hpk; [|done].
    simpl. unfold bind, ret. simpl. intros H. injection H as <- <- _.
    assert (Hin : pkey ∈ keys') by (eapply list_elem_of_lookup_2; eauto).
    pose proof (length_list_remove pkey keys' Hin) as Hrm.
    assert (H2 : 2 * split_index cap <= cap + 1)
      by (unfold split_index; apply Z.mul_div_le; lia).
    assert (H3 : cap <= 2 * split_index cap).
    { unfold split_index. Z.div_mod_to_equations. lia. }
    unfold slice_from, slice_to. rewrite !slice_bound_nonneg by lia.
    simpl. unfold min_keys, len in *. split_and!.
    + rewrite length_take. lia.
    + by apply Forall_take.
    + rewrite length_drop. lia.
    + by apply Forall_drop.
  - unfold ret. intros H. injection H as <- <- _. simpl.
    split; [|done]. unfold len in *. lia.
Qed.

(** [insert] keeps the subtree filled; the two halves of a split are filled
    to [min_keys] whatever the node held before. *)
Lemma insert_keeps_filled (cap : Z) (n : nat) :
  1 <= cap ->
  forall lo hi p bl r key s p' promo s',
    shape cap n lo hi p bl ->
    filled cap r p ->
    BPTreeNode.insert p key s = Ok ((p', promo), s') ->
    match promo with
    | None => filled cap r p'
    | Some (_, q) => filled cap (min_keys cap) p' /\ filled cap (min_keys cap) q
    end.
Proof.
  intros Hcap. induction n as [|n IH]; intros lo hi p bl r key s p' promo s' Hs Hf Hins.
  - destruct p as [a|]; [|done]. simpl in Hins. unfold bind in Hins.
    destruct (BPTreeLeaf.insert a key s) as [[r0 s1]|] eqn:E; [|done].
    unfold ret in Hins. injection Hins as <- <- _.
    destruct r0 as [[pk q]|]; [|done].
    apply leaf_insert_promotes_leaf in E as [a' ->]. done.
  - destruct p as [|ks cs c]; [done|]. destruct Hs as (-> & Hlen & Hb).
    destruct Hf as [Hr Hkids].
    rewrite insert_node_eq in Hins. unfold bind in Hins.
    destruct (on_nth _ cs (bisect_right ks key) s) as [[[c0' promo0] s1]|] eqn:E; [|done].
    apply on_nth_inv in E as (c0 & Hc0 & Hins0).
    apply bps_children in Hb. rewrite Forall_forall in Hb, Hkids.
    assert (Hel : c0 ∈ cs) by (eapply list_elem_of_lookup_2; eauto).
    destruct (Hb c0 Hel) as (lo' & hi' & l & Hs0 & _).
    pose proof (Hkids c0 Hel) as Hf0. apply all_nodes_filled in Hf0.
    pose proof (IH _ _ _ _ _ _ _ _ _ _ Hs0 Hf0 Hins0) as Hres.
    assert (Hkids' : all_nodes (fun ks _ => min_keys cap <= len ks) c0' ->
              Forall (all_nodes (fun ks _ => min_keys cap <= len ks))
                     (<[bisect_right ks key := c0']> cs)).
    { intros Hc0'. rewrite Forall_forall. intros x Hx.
      apply list_elem_of_lookup_1 in Hx as [j Hj].
      destruct (decide (j = bisect_right ks key)) as [->|Hne].
      - rewrite list_lookup_insert_eq in Hj by (eapply lookup_lt_Some; eauto).
        by injection Hj as <-.
      - rewrite list_lookup_insert_ne in Hj by done.
        apply Hkids. eapply list_elem_of_lookup_2; eauto. }
    simpl in Hins. destruct promo0 as [[pk q]|].
    + destruct Hres as [Hc0' Hq%all_nodes_filled]. apply all_nodes_filled in Hc0'.
      exact (insert_here_filled cap ks _ _ pk q r s1 s' p' promo
               Hcap Hlen Hr (Hkids' Hc0') Hq Hins).
    + unfold ret in Hins. injection Hins as <- <- _. simpl.
      split; [done|]. by apply Hkids', all_nodes_filled.
Qed.

Lemma reachable_nodes_half_full (cap : Z) (t : BPTree) :
  1 <= cap -> reachable cap t -> nodes_half_full t.
Proof.
  intros Hcap Hr. induction Hr as [t Hinit|t key t' Hr IH Hins].
  - unfold BPTree.init, alloc in Hinit. by injection Hinit as <-.
  - destruct (reachable_inv cap t Hcap Hr) as [n Hinv].
    destruct Hinv as (Hc & bl & Hshape & _).
    unfold nodes_half_full in *. rewrite Hc in IH.
    unfold BPTree.insert in Hins.
    destruct (BPTreeNode.insert (_tree t) key (_leaves t)) as [[[root promo] s']|] eqn:E;
      [|done].
    pose proof (insert_keeps_filled cap n Hcap _ _ _ _ _ _ _ _ _ _ Hshape IH E) as Hres.
    destruct promo as [[pk q]|]; injection Hins as <-; simpl; rewrite Hc.
    + destruct Hres as [Hroot Hq]. split; [unfold len; simpl; lia|].
      repeat constructor; by apply all_nodes_filled.
    + done.
Qed.

Lemma Test_tree_built : build 3 test_keys = Ok Test_tree.
Proof. vm_compute. reflexivity. Qed.

Lemma Test_tree_reachable : reachable 3 Test_tree.
Proof. apply (build_reachable 3 test_keys). exact Test_tree_built. Qed.

(** X11.  In a state reached by inserts on a tree of capacity at least 1,
    a root that is a node holds at least one key and every other node of
    the tree at least [capacity - split_index] keys, which is
    [capacity // 2]: a node split keeps [split_index] keys, promotes one
    and moves the rest to the new node, and nodes only grow otherwise. *)
Theorem nodes_stay_half_full (cap : Z) (t : BPTree) :
  1 <= cap -> reachable cap t ->
  nodes_half_full t /\ min_keys (_capacity t) = cap / 2.
Proof.
  intros Hcap Hr. split; [exact (reachable_nodes_half_full cap t Hcap Hr)|].
  destruct (reachable_inv cap t Hcap Hr) as [n Hinv].
  replace (_capacity t) with cap by (symmetry; apply Hinv).
  apply min_keys_half.
Qed.

Lemma nodes_stay_half_full_witness :
  1 <= 3 /\ reachable 3 Test_tree /\
  nodes_half_full Test_tree /\ min_keys (_capacity Test_tree) = 3 / 2.
Proof.
  assert (H1 : 1 <= 3) by lia.
  split; [exact H1|]. split; [exact Test_tree_reachable|].
  exact (nodes_stay_half_full 3 Test_tree H1 Test_tree_reachable).
Defined.
